(** * dat: migration runner helpers (cmd/dat/utils.go)

    A shallow embedding of the reconciliation check
    ([verifyMigrationsHistory]), the script executor ([execScript],
    [execFile], [runUpScripts]) and the error locator
    ([extractLineColumn]) of the [dat] command line tool, together with
    the properties its specification states about them. *)

From Stdlib Require Import ZArith List Ascii String Bool Lia DecimalString.
Import ListNotations.
Open Scope Z_scope.

(** ** Go strings

    A Go [string] is an immutable sequence of bytes; [len] counts bytes,
    [s[i]] reads one byte and [<] compares byte-wise. *)

Module GoString.

Definition gostring := list ascii.

(** A literal. *)
Definition str (s : string) : gostring := list_ascii_of_string s.

Definition LF : ascii := "010"%char.
Definition CR : ascii := "013"%char.

Definition len (s : gostring) : Z := Z.of_nat (List.length s).

(** [s[i]] for an index within range (Go panics outside it; every
    use below is guarded by a bound check, as in the source). *)
Definition byte_at (s : gostring) (i : Z) : ascii :=
  nth (Z.to_nat i) s zero.

Definition code (c : ascii) : Z := Z.of_N (N_of_ascii c).

Fixpoint eqb (a b : gostring) : bool :=
  match a, b with
  | [], [] => true
  | x :: a', y :: b' => Ascii.eqb x y && eqb a' b'
  | _, _ => false
  end.

(** [a < b] on strings: lexicographic on bytes. *)
Fixpoint ltb (a b : gostring) : bool :=
  match a, b with
  | _, [] => false
  | [], _ :: _ => true
  | x :: a', y :: b' =>
      if code x <? code y then true
      else if code y <? code x then false
      else ltb a' b'
  end.

Fixpoint has_prefix (s p : gostring) : bool :=
  match p, s with
  | [], _ => true
  | _ :: _, [] => false
  | y :: p', x :: s' => Ascii.eqb x y && has_prefix s' p'
  end.

(** [strings.Contains s sub]. *)
Fixpoint contains (s sub : gostring) : bool :=
  has_prefix s sub ||
  match s with
  | [] => false
  | _ :: s' => contains s' sub
  end.

End GoString.
Import GoString.

(** ** Go's [int] and [strconv.Atoi]

    [int] is taken as the 64-bit signed integer of the usual targets;
    arithmetic on it wraps around. *)

Module GoInt.

Definition min_int : Z := - 2 ^ 63.
Definition max_int : Z := 2 ^ 63 - 1.

(** The value of a 64-bit signed integer after an operation whose
    mathematical result is [z]. *)
Definition wrap (z : Z) : Z := (z + 2 ^ 63) mod 2 ^ 64 - 2 ^ 63.

Definition in_range (z : Z) : bool := (min_int <=? z) && (z <=? max_int).

End GoInt.
Import GoInt.

(** The errors that travel through the modelled functions. *)
Inductive error : Type :=
| NumError (num : gostring)     (* *strconv.NumError: [num] is no int *)
| PathError (path : gostring)   (* *os.PathError: the file cannot be read *)
| DriverError (msg : gostring)  (* an error of the database driver *)
| Errorf (msg : gostring)       (* fmt.Errorf *)
| PQError (severity code message position : gostring).
                                (* *pq.Error, with the fields read here *)

(** [err.Error()]: the text of an error, as far as the code inspects
    it (only driver errors are inspected, by [execScript]). *)
Definition Error_text (e : error) : gostring :=
  match e with
  | NumError num => str "strconv.Atoi: parsing " ++ num
  | PathError path => str "open " ++ path
  | DriverError msg => msg
  | Errorf msg => msg
  | PQError _ _ message _ => str "pq: " ++ message
  end.

Module Strconv.

Definition digit (c : ascii) : option Z :=
  let n := code c in
  if (48 <=? n) && (n <=? 57) then Some (n - 48) else None.

Fixpoint digits (acc : Z) (s : gostring) : option Z :=
  match s with
  | [] => Some acc
  | c :: r =>
      match digit c with
      | Some d => digits (acc * 10 + d) r
      | None => None
      end
  end.

(** [strconv.Atoi]: an optional sign followed by one or more decimal
    digits, the value within the range of [int]; anything else is a
    [*NumError] (syntax and range errors are not told apart here, the
    callers do not either). *)
Definition Atoi (s : gostring) : Z + error :=
  let '(neg, body) :=
    match s with
    | "-"%char :: r => (true, r)
    | "+"%char :: r => (false, r)
    | _ => (false, s)
    end in
  match body with
  | [] => inr (NumError s)
  | _ :: _ =>
      match digits 0 body with
      | None => inr (NumError s)
      | Some n =>
          let v := if neg then - n else n in
          if in_range v then inl v else inr (NumError s)
      end
  end.

End Strconv.
Import Strconv.

(** ** ErrorLocator: [extractLineColumn] *)

Module Locator.

(** The loop variables of [extractLineColumn]. *)
Record vars := { i : Z; line : Z; column : Z }.

(** The loop condition [i < max && i < position]. *)
Definition running (max position : Z) (v : vars) : bool :=
  (i v <? max) && (i v <? position).

(** One pass through the loop body. *)
Definition body (script : gostring) (max : Z) (v : vars) : vars :=
  let ch := byte_at script (i v) in
  if Ascii.eqb ch CR then
    let i1 :=
      if (i v + 1 <? max) && Ascii.eqb (byte_at script (i v + 1)) LF
      then i v + 1 else i v in
    if i1 <? max - 1
    then {| i := i1 + 1; line := line v + 1; column := 0 |}
    else {| i := i1 + 1; line := line v; column := column v |}
  else if Ascii.eqb ch LF then
    if i v <? max - 1
    then {| i := i v + 1; line := line v + 1; column := 0 |}
    else {| i := i v + 1; line := line v; column := column v |}
  else {| i := i v + 1; line := line v; column := column v + 1 |}.

(** The [for] loop; [None] when [fuel] passes do not reach its exit. *)
Fixpoint loop (fuel : nat) (script : gostring) (max position : Z)
    (v : vars) : option vars :=
  if running max position v then
    match fuel with
    | O => None
    | S fuel' => loop fuel' script max position (body script max v)
    end
  else Some v.

(** [extractLineColumn script pos]: line, column and error.  The loop
    is given one pass per byte of the script, which is enough for it
    to end ([LocatorFacts.loop_scan]). *)
Definition extractLineColumn (script pos : gostring)
    : option (Z * Z * option error) :=
  match Atoi pos with
  | inr err => Some (0, 0, Some err)
  | inl parsed =>
      let position := wrap (parsed + 1) in
      let max := len script in
      match loop (List.length script) script max position
              {| i := 0; line := 1; column := 0 |} with
      | Some v => Some (line v, column v, None)
      | None => None
      end
  end.

(** The loop once more, as a recursion on the bytes still to be read
    ([LocatorFacts.loop_scan] relates the two). *)
Fixpoint locate_scan (rest : gostring) (idx target line column : Z)
    : Z * Z :=
  if target <=? idx then (line, column)
  else
    match rest with
    | [] => (line, column)
    | c :: rest1 =>
        if Ascii.eqb c CR then
          match rest1 with
          | [] => (line, column)
          | c2 :: rest2 =>
              if Ascii.eqb c2 LF then
                match rest2 with
                | [] => (line, column)
                | _ :: _ => locate_scan rest2 (idx + 2) target (line + 1) 0
                end
              else locate_scan rest1 (idx + 1) target (line + 1) 0
          end
        else if Ascii.eqb c LF then
          match rest1 with
          | [] => (line, column)
          | _ :: _ => locate_scan rest1 (idx + 1) target (line + 1) 0
          end
        else locate_scan rest1 (idx + 1) target line (column + 1)
    end.

(** The characters of a text in UTF-8: a byte, with the continuation
    bytes (10xxxxxx) that follow it. *)
Definition is_continuation (c : ascii) : bool :=
  (128 <=? code c) && (code c <? 192).

Fixpoint characters (s : gostring) : list gostring :=
  match s with
  | [] => []
  | c :: r =>
      match characters r with
      | (x :: tail) :: rest =>
          if is_continuation x then (c :: x :: tail) :: rest
          else [c] :: (x :: tail) :: rest
      | other => [c] :: other
      end
  end.

(** The text has one-byte characters only (it is ASCII). *)
Definition single_bytes (s : gostring) : bool :=
  forallb (fun c => code c <? 128) s.

(** The locator in the words of its description: increment the
    offset, then scan the script character by character from the start
    with [line] at 1 and [column] at 0; a character that is no line
    break adds one to [column]; a carriage return, with the line feed
    that follows it if there is one, or a lone line feed is one line
    break, which adds one to [line] and resets [column] unless it ends
    the script; the scan stops when the running index [idx] reaches
    [target] or the script ends. *)
Fixpoint locate_chars (rest : list gostring) (idx target line column : Z)
    : Z * Z :=
  if target <=? idx then (line, column)
  else
    match rest with
    | [] => (line, column)
    | c :: rest1 =>
        if eqb c [CR] then
          match rest1 with
          | [] => (line, column)
          | c2 :: rest2 =>
              if eqb c2 [LF] then
                match rest2 with
                | [] => (line, column)
                | _ :: _ => locate_chars rest2 (idx + 2) target (line + 1) 0
                end
              else locate_chars rest1 (idx + 1) target (line + 1) 0
          end
        else if eqb c [LF] then
          match rest1 with
          | [] => (line, column)
          | _ :: _ => locate_chars rest1 (idx + 1) target (line + 1) 0
          end
        else locate_chars rest1 (idx + 1) target line (column + 1)
    end.

Definition locate_spec (script : gostring) (offset : Z) : Z * Z :=
  locate_chars (characters script) 0 (offset + 1) 1 0.

End Locator.

(** ** Options and context (the configuration file of the tool) *)

Record Connection := {
  Database : gostring;
  ExtraParams : gostring;
  Host : gostring;
  User : gostring;
  Password : gostring }.

Record AppOptions := {
  Conn : Connection;              (* field [Connection] *)
  BatchSeparator : gostring;
  DumpsDir : gostring;
  MigrationsDir : gostring;
  SprocsDir : gostring;
  TablePrefix : gostring;
  Vendor : gostring;
  UnparsedArgs : list gostring }.

(** Of [AppContext] the functions below read [Options] only. *)
Record AppContext := { Options : AppOptions }.

(** [config.OrString key dflt]: the configured value of [key], [dflt]
    when the configuration has none. *)
Definition OrString (configured : option gostring) (dflt : gostring)
    : gostring :=
  match configured with
  | Some v => v
  | None => dflt
  end.

(** The [BatchSeparator] field as [parseOptions] fills it. *)
Definition parse_BatchSeparator (configured : option gostring) : gostring :=
  OrString configured (str "GO").

Record Migration := {
  Name : gostring;
  UpScript : gostring;
  DownScript : gostring;
  NoTransactionScript : gostring }.

(** A migration of which only the name is known
    ([getPartialLocalMigrations]). *)
Definition partial (name : gostring) : Migration :=
  {| Name := name; UpScript := []; DownScript := [];
     NoTransactionScript := [] |}.

(** ** The world the functions act on

    The package-level [logger], the database behind the
    [runner.Connection] and the transaction [conn.Begin()] hands out. *)

Module World.

(** What a statement leaves in the database. *)
Inductive effect : Type :=
| Stmt (sql : gostring)
| LedgerRow (name up down notx : gostring).

(** The two handles of [runUpScripts]: the connection it is given and
    the transaction it begins. *)
Inductive handle : Type := HConn | HTx.

Inductive event : Type :=
| EvExec (h : handle) (sql : gostring)
| EvInsert (name : gostring)
| EvBegin
| EvCommit
| EvRollback.

Record txn := {
  pending : list effect;     (* written in the transaction, not yet durable *)
  committed : bool;
  rolledback : bool }.

(** [durable] is the history of what the database made durable, in the
    order it was applied: a statement that undoes an earlier one (a
    DROP after a CREATE) is one more entry, not the removal of one.  A
    rollback discards what is pending and leaves this history alone. *)
Record world := {
  log : list gostring;       (* what the logger printed, oldest first *)
  durable : list effect;     (* what the database made durable, in order *)
  tx : option txn;           (* the transaction of [conn.Begin()] *)
  trace : list event }.      (* the calls made on the two handles *)

(** The database's answer to one statement: whether the statement
    took effect and the error reported, if any. *)
Record outcome := { applied : bool; err : option error }.

(** Modelled from the spec: the connection/transaction collaborator
    (package sqlx-runner, not under src/) and the file system.  The
    collaborator exposes [execute], [begin] and a transaction with
    [commit] and an [autoRollback] that is a no-op after a successful
    commit; what each call answers is left open here. *)
Record Env := {
  stat : gostring -> bool;                   (* [os.Stat] finds the file *)
  read : gostring -> gostring + error;       (* [ioutil.ReadFile] *)
  answer : list effect -> list effect -> gostring -> outcome;
                                             (* durable, pending, statement *)
  begin_error : option error;
  insert_error : option error;
  commit_error : option error }.

(** State passing. *)
Definition M (A : Type) : Type := world -> A * world.

Definition ret {A} (a : A) : M A := fun w => (a, w).

Definition bind {A B} (m : M A) (k : A -> M B) : M B :=
  fun w => let '(a, w') := m w in k a w'.

Definition Info (msg : gostring) : M unit :=
  fun w => (tt, {| log := log w ++ [msg]; durable := durable w;
                   tx := tx w; trace := trace w |}).

(** The world after [msgs] were logged. *)
Definition logged (w : world) (msgs : list gostring) : world :=
  {| log := log w ++ msgs; durable := durable w; tx := tx w;
     trace := trace w |}.

(** [logger.Error(msg)]. *)
Definition LogError (msg : gostring) : M unit := Info msg.

Definition record (e : event) (w : world) : world :=
  {| log := log w; durable := durable w; tx := tx w;
     trace := trace w ++ [e] |}.

Definition no_pending : list effect := [].

Definition pending_of (w : world) : list effect :=
  match tx w with
  | Some t => pending t
  | None => no_pending
  end.

(** [h.SQL(sql).Exec()].  On the connection a statement that takes
    effect is durable at once; on the transaction it is pending. *)
Definition Exec (env : Env) (h : handle) (sql : gostring)
    : M (option error) :=
  fun w =>
    let w1 := record (EvExec h sql) w in
    match h with
    | HConn =>
        let o := answer env (durable w) no_pending sql in
        (err o,
         {| log := log w1;
            durable := if applied o then durable w ++ [Stmt sql]
                       else durable w;
            tx := tx w1; trace := trace w1 |})
    | HTx =>
        let o := answer env (durable w) (pending_of w) sql in
        (err o,
         {| log := log w1; durable := durable w1;
            tx := match tx w with
                  | Some t =>
                      Some {| pending := if applied o
                                         then pending t ++ [Stmt sql]
                                         else pending t;
                              committed := committed t;
                              rolledback := rolledback t |}
                  | None => None
                  end;
            trace := trace w1 |})
    end.

(** [conn.Begin()]. *)
Definition Begin (env : Env) : M (option error) :=
  fun w =>
    match begin_error env with
    | Some e => (Some e, w)
    | None =>
        let w1 := record EvBegin w in
        (None,
         {| log := log w1; durable := durable w1;
            tx := Some {| pending := []; committed := false;
                          rolledback := false |};
            trace := trace w1 |})
    end.

(** The ledger insert, [tx.SQL(q, name, up, down, notx).Exec()]. *)
Definition InsertLedger (env : Env) (m : Migration) : M (option error) :=
  fun w =>
    let w1 := record (EvInsert (Name m)) w in
    match insert_error env with
    | Some e => (Some e, w1)
    | None =>
        (None,
         {| log := log w1; durable := durable w1;
            tx := match tx w with
                  | Some t =>
                      Some {| pending :=
                                pending t ++
                                [LedgerRow (Name m) (UpScript m)
                                   (DownScript m) (NoTransactionScript m)];
                              committed := committed t;
                              rolledback := rolledback t |}
                  | None => None
                  end;
            trace := trace w1 |})
    end.

(** [tx.Commit()]. *)
Definition Commit (env : Env) : M (option error) :=
  fun w =>
    let w1 := record EvCommit w in
    match tx w, commit_error env with
    | Some t, None =>
        (None,
         {| log := log w1; durable := durable w ++ pending t;
            tx := Some {| pending := []; committed := true;
                          rolledback := rolledback t |};
            trace := trace w1 |})
    | _, Some e => (Some e, w1)
    | None, None => (None, w1)
    end.

(** [tx.AutoRollback()]: nothing after a successful commit (or a
    rollback already made), a rollback otherwise. *)
Definition AutoRollback : M unit :=
  fun w =>
    match tx w with
    | Some t =>
        if committed t || rolledback t then (tt, w)
        else
          let w1 := record EvRollback w in
          (tt,
           {| log := log w1; durable := durable w1;
              tx := Some {| pending := []; committed := false;
                            rolledback := true |};
              trace := trace w1 |})
    | None => (tt, w)
    end.

(** [defer d] around [body]: [d] runs on every way out. *)
Definition deferring {A} (d : M unit) (body : M A) : M A :=
  bind body (fun r => bind d (fun _ => ret r)).

Definition is_row (e : effect) : bool :=
  match e with
  | LedgerRow _ _ _ _ => true
  | Stmt _ => false
  end.

(** The rows of the ledger table among the durable effects. *)
Definition ledger (w : world) : list effect := filter is_row (durable w).

Definition is_stmt (e : effect) : bool := negb (is_row e).

Definition is_conn_exec (e : event) : bool :=
  match e with
  | EvExec HConn _ => true
  | _ => false
  end.

Definition on_tx (e : event) : bool :=
  match e with
  | EvExec HTx _ => true
  | _ => false
  end.

(** [w'] comes from [w] by statements run on the connection, and
    nothing else: no transaction call, no ledger row. *)
Definition conn_only (w w' : world) : Prop :=
  tx w' = tx w /\
  (exists d, durable w' = durable w ++ d /\ forallb is_stmt d = true) /\
  (exists t, trace w' = trace w ++ t /\ forallb is_conn_exec t = true).

Definition fresh : world :=
  {| log := []; durable := []; tx := None; trace := [] |}.

End World.
Import World.

Notation "x <- m ;; k" := (bind m (fun x => k))
  (at level 61, m at next level, right associativity).

(** ** ReconciliationEngine: [verifyMigrationsHistory] *)

Module Reconcile.

(** The [for i, migration := range migrations] of
    [migrationFindIndexOf], from index [i] on. *)
Fixpoint find_from (migrations : list Migration) (name : gostring)
    (i : Z) : Z :=
  match migrations with
  | [] => -1
  | migration :: rest =>
      if eqb (Name migration) name then i
      else find_from rest name (i + 1)
  end.

Definition migrationFindIndexOf (migrations : list Migration)
    (name : gostring) : Z :=
  if 0 <? Z.of_nat (List.length migrations)
  then find_from migrations name 0
  else -1.

Definition msg_not_local (name : gostring) : gostring :=
  str "Migration " ++ name ++
  str " was migrated in database but does not exist in local migrations."
  ++ [LF].

Definition msg_younger (localName lastName : gostring) : gostring :=
  str "Migration " ++ localName ++
  str " will not be migrated. Its timestamp is younger than last migration "
  ++ lastName ++ [LF].

Definition msg_out_of_sync (database : gostring) : gostring :=
  str "Local migrations are out of sync with " ++ database ++
  str " database, rename as needed".

(** First loop: every ledger entry that is not a local migration. *)
Fixpoint check_db (localMigrations dbMigrations : list Migration)
    (inError : bool) : M bool :=
  match dbMigrations with
  | [] => ret inError
  | migration :: rest =>
      let idx := migrationFindIndexOf localMigrations (Name migration) in
      if idx =? -1 then
        _ <- Info (msg_not_local (Name migration)) ;;
        check_db localMigrations rest true
      else check_db localMigrations rest inError
  end.

(** Second loop: every local migration older than the last ledger
    entry that the ledger does not have. *)
Fixpoint check_local (dbMigrations : list Migration)
    (lastMigration : Migration) (localMigrations : list Migration)
    (inError : bool) : M bool :=
  match localMigrations with
  | [] => ret inError
  | localMigration :: rest =>
      let localName := Name localMigration in
      if ltb localName (Name lastMigration) then
        let idx := migrationFindIndexOf dbMigrations localName in
        if idx =? -1 then
          _ <- Info (msg_younger localName (Name lastMigration)) ;;
          check_local dbMigrations lastMigration rest true
        else check_local dbMigrations lastMigration rest inError
      else check_local dbMigrations lastMigration rest inError
  end.

Definition verifyMigrationsHistory (ctx : AppContext)
    (localMigrations dbMigrations : list Migration) : M (option error) :=
  match dbMigrations with
  | [] => ret None
  | first :: _ =>
      inError <- check_db localMigrations dbMigrations false ;;
      let lastMigration := last dbMigrations first in
      inError <- check_local dbMigrations lastMigration localMigrations
                   inError ;;
      if (inError : bool)
      then ret (Some (Errorf
                        (msg_out_of_sync (Database (Conn (Options ctx))))))
      else ret None
  end.

(** The two violations, as the loops test them. *)
Definition not_local (localMigrations : list Migration) (m : Migration)
    : bool :=
  migrationFindIndexOf localMigrations (Name m) =? -1.

Definition unapplied (dbMigrations : list Migration)
    (lastMigration m : Migration) : bool :=
  ltb (Name m) (Name lastMigration) &&
  (migrationFindIndexOf dbMigrations (Name m) =? -1).

(** Ascending by [Name] (names are unique, so strictly). *)
Fixpoint ascending (l : list Migration) : bool :=
  match l with
  | [] => true
  | a :: rest =>
      match rest with
      | [] => true
      | b :: _ => ltb (Name a) (Name b) && ascending rest
      end
  end.

(** A migration of that name is in the list. *)
Definition present (name : gostring) (l : list Migration) : bool :=
  existsb (fun m => eqb (Name m) name) l.

End Reconcile.

(** ** BatchSplitter: [reBatchSeparator.Split(script, -1)] *)

Module Splitter.

(** What [reBatchSeparator], the pattern [(?m)^GO\n], matches: the
    letters [GO] and a line feed, at the beginning of a line. *)
Definition separator : gostring := str "GO" ++ [LF].

(** [Split] for that pattern.  [bol] says whether the scan stands at
    the beginning of a line, [acc] holds the current segment in
    reverse.  Matches are taken leftmost, one after the other, and
    the text after the last one is a segment too, empty or not; a
    text without a match (the empty one included) is its own single
    segment. *)
Fixpoint split_go (bol : bool) (acc : gostring) (s : gostring)
    : list gostring :=
  match s with
  | [] => [rev acc]
  | c :: r =>
      if bol && has_prefix s separator then
        match r with
        | _ :: _ :: r' => rev acc :: split_go true [] r'
        | _ => [rev acc]
        end
      else split_go (Ascii.eqb c LF) (c :: acc) r
  end.

Definition Split (script : gostring) : list gostring :=
  split_go true [] script.

(** Position [i] of [s] begins a line, [bol] telling it for position 0. *)
Definition line_start (bol : bool) (s : gostring) (i : nat) : Prop :=
  match i with
  | O => bol = true
  | S j => nth_error s j = Some LF
  end.

(** The pattern matches [s] at position [i]. *)
Definition separator_at (s : gostring) (i : nat) : Prop :=
  line_start true s i /\ has_prefix (skipn i s) separator = true.

(** The same, decided. *)
Definition line_startb (s : gostring) (i : nat) : bool :=
  match i with
  | O => true
  | S j =>
      match nth_error s j with
      | Some c => Ascii.eqb c LF
      | None => false
      end
  end.

Definition matches_at (s : gostring) (i : nat) : bool :=
  line_startb s i && has_prefix (skipn i s) separator.

(** The script has a separator somewhere. *)
Definition has_match (s : gostring) : bool :=
  existsb (matches_at s) (seq 0 (S (List.length s))).

End Splitter.
Import Splitter.

(** ** [str.IsEmpty] of github.com/mgutz/str *)

Module Str.

(** The one-byte white space of [strings.TrimSpace]: tab, line feed,
    vertical tab, form feed, carriage return and space. *)
Definition is_space (c : ascii) : bool :=
  let n := code c in
  ((9 <=? n) && (n <=? 13)) || (n =? 32).

(** The last byte of the white space characters U+2000 to U+200A,
    U+2028, U+2029 and U+202F, whose UTF-8 form begins E2 80. *)
Definition is_space_E2_80 (c : ascii) : bool :=
  let n := code c in
  ((128 <=? n) && (n <=? 138)) || (n =? 168) || (n =? 169) || (n =? 175).

(** [s] is made of white space characters only, as [unicode.IsSpace]
    has them: the six above, U+0085 (C2 85), U+00A0 (C2 A0), U+1680
    (E1 9A 80), U+2000 to U+200A, U+2028, U+2029, U+202F (E2 80 ..),
    U+205F (E2 81 9F) and U+3000 (E3 80 80), in UTF-8. *)
Fixpoint all_space (s : gostring) : bool :=
  match s with
  | [] => true
  | c :: r =>
      if is_space c then all_space r
      else
        match r with
        | c2 :: r2 =>
            if (code c =? 194) && ((code c2 =? 133) || (code c2 =? 160))
            then all_space r2
            else
              match r2 with
              | c3 :: r3 =>
                  if ((code c =? 225) && (code c2 =? 154) && (code c3 =? 128))
                     || ((code c =? 226) && (code c2 =? 128)
                         && is_space_E2_80 c3)
                     || ((code c =? 226) && (code c2 =? 129)
                         && (code c3 =? 159))
                     || ((code c =? 227) && (code c2 =? 128)
                         && (code c3 =? 128))
                  then all_space r3
                  else false
              | [] => false
              end
        | [] => false
        end
  end.

(** [IsEmpty s]: [s] is solely composed of white space, that is,
    [strings.TrimSpace(s)] is empty. *)
Definition IsEmpty (s : gostring) : bool := all_space s.

End Str.

(** ** Diagnostics: [sprintPQError] *)

Module Diagnostics.

(** [%d] of an [int]. *)
Definition itoa (z : Z) : gostring :=
  str (NilZero.string_of_int (Z.to_int z)).

(** [sprintPQError script err]: the text for the logger.  A
    [*pq.Error] with a position is located in the script, the error of
    [extractLineColumn] being dropped; one without is printed without a
    place; any other error, and no error, give the empty text.  (The
    marks and the dump of the error that the function also writes to
    standard output are no part of the world modelled here, which keeps
    what goes through the logger.) *)
Definition sprintPQError (script : gostring) (err : option error)
    : gostring :=
  match err with
  | None => []
  | Some (PQError severity code message position) =>
      if eqb position [] then
        str "[PQ " ++ severity ++ str "=" ++ code ++ str "] " ++ message
      else
        match Locator.extractLineColumn script position with
        | Some (line, col, _) =>
            str "[" ++ severity ++ str "=" ++ code ++ str "] " ++ message
            ++ str " at line=" ++ itoa line ++ str " col=" ++ itoa col
            ++ [LF]
        | None => []
        end
  | Some _ => []
  end.

End Diagnostics.
Import Diagnostics.

(** ** ScriptExecutor: [execScript], [execFile] *)

Module Executor.

(** The [for _, statement := range statements] of [execScript]. *)
Fixpoint exec_statements (env : Env) (conn : handle)
    (statements : list gostring) : M (option error) :=
  match statements with
  | [] => ret None
  | statement :: rest =>
      if eqb statement [] then exec_statements env conn rest
      else if Str.IsEmpty statement then ret None
      else
        err <- Exec env conn statement ;;
        match err with
        | Some e =>
            if contains (Error_text e) (str "no RowsAffected")
            then exec_statements env conn rest
            else
              _ <- LogError (sprintPQError statement (Some e)) ;;
              ret (Some e)
        | None => exec_statements env conn rest
        end
  end.

Definition execScript (env : Env) (conn : handle) (script : gostring)
    : M (option error) :=
  let statements := Split script in
  if Z.of_nat (List.length statements) =? 0 then ret None
  else exec_statements env conn statements.

Definition execFile (env : Env) (ctx : AppContext) (conn : handle)
    (filename : gostring) : M (gostring * option error) :=
  _ <- Info (filename ++ str " ... ") ;;
  match read env filename with
  | inr e => _ <- Info [LF] ;; ret ([], Some e)
  | inl script =>
      err <- execScript env conn script ;;
      match err with
      | Some e => _ <- Info [LF] ;; ret ([], Some e)
      | None => _ <- Info (str "OK" ++ [LF]) ;; ret (script, None)
      end
  end.

End Executor.
Import Executor.

(** ** MigrationRunner: [runUpScripts] *)

Module Runner.

(** [filepath.Join] of three clean path elements. *)
Definition Join (dir name file : gostring) : gostring :=
  dir ++ str "/" ++ name ++ str "/" ++ file.

Definition scriptFilename (options : AppOptions) (migration : Migration)
    (subFile : gostring) : gostring :=
  Join (MigrationsDir options) (Name migration) subFile.

Definition set_NoTransactionScript (migration : Migration)
    (script : gostring) : Migration :=
  {| Name := Name migration; UpScript := UpScript migration;
     DownScript := DownScript migration; NoTransactionScript := script |}.

Definition set_DownScript (migration : Migration) (script : gostring)
    : Migration :=
  {| Name := Name migration; UpScript := UpScript migration;
     DownScript := script;
     NoTransactionScript := NoTransactionScript migration |}.

Definition set_UpScript (migration : Migration) (script : gostring)
    : Migration :=
  {| Name := Name migration; UpScript := script;
     DownScript := DownScript migration;
     NoTransactionScript := NoTransactionScript migration |}.

(** The optional [notx.sql], run on [conn] before anything else. *)
Definition notx_step (env : Env) (ctx : AppContext) (migration : Migration)
    : M (Migration * option error) :=
  let noTxFilename :=
    scriptFilename (Options ctx) migration (str "notx.sql") in
  if stat env noTxFilename then
    r <- execFile env ctx HConn noTxFilename ;;
    let '(script, err) := r in
    match err with
    | Some e => ret (migration, Some e)
    | None => ret (set_NoTransactionScript migration script, None)
    end
  else ret (migration, None).

(** The optional [down.sql], read and kept, never run. *)
Definition down_step (env : Env) (ctx : AppContext) (migration : Migration)
    : Migration * option error :=
  let downFilename :=
    scriptFilename (Options ctx) migration (str "down.sql") in
  if stat env downFilename then
    match read env downFilename with
    | inr e => (migration, Some e)
    | inl downScript => (set_DownScript migration downScript, None)
    end
  else (migration, None).

(** From [upScript, err := execFile(ctx, conn, ...)] to the end, the
    part the deferred [tx.AutoRollback()] covers. *)
Definition tx_body (env : Env) (ctx : AppContext) (migration : Migration)
    : M (Migration * option error) :=
  r <- execFile env ctx HConn
         (scriptFilename (Options ctx) migration (str "up.sql")) ;;
  let '(upScript, err) := r in
  match err with
  | Some e => ret (migration, Some e)
  | None =>
      let migration := set_UpScript migration upScript in
      err <- InsertLedger env migration ;;
      match err with
      | Some e => ret (migration, Some e)
      | None =>
          _ <- Commit env ;;
          ret (migration, None)
      end
  end.

(** The rest of [runUpScripts] once [notx.sql] is dealt with:
    [down.sql], [conn.Begin()] and the deferred rollback around the
    up script, the ledger insert and the commit. *)
Definition after_notx (env : Env) (ctx : AppContext)
    (migration : Migration) : M (Migration * option error) :=
  let '(migration, err) := down_step env ctx migration in
  match err with
  | Some e => ret (migration, Some e)
  | None =>
      err <- Begin env ;;
      match err with
      | Some e => ret (migration, Some e)
      | None => deferring AutoRollback (tx_body env ctx migration)
      end
  end.

(** [runUpScripts ctx conn migration]: the migration as the call
    leaves it (it is handed over by pointer) and the error returned. *)
Definition runUpScripts (env : Env) (ctx : AppContext)
    (migration : Migration) : M (Migration * option error) :=
  r <- notx_step env ctx migration ;;
  let '(migration, err) := r in
  match err with
  | Some e => ret (migration, Some e)
  | None => after_notx env ctx migration
  end.

End Runner.
Import Runner.

(** ** Sample inputs *)

Module Sample.

Definition options (database separator : gostring) : AppOptions :=
  {| Conn := {| Database := database; ExtraParams := [];
                Host := str "localhost"; User := str "dat";
                Password := [] |};
     BatchSeparator := separator;
     DumpsDir := str "migrations/_dumps";
     MigrationsDir := str "migrations";
     SprocsDir := str "migrations/sprocs";
     TablePrefix := str "dat";
     Vendor := str "postgres";
     UnparsedArgs := [] |}.

(** The context of a configuration that sets the database name and
    leaves the batch separator at its default. *)
Definition ctx : AppContext :=
  {| Options := options (str "app") (parse_BatchSeparator None) |}.

Definition init : Migration := partial (str "202001010000-init").
Definition add_col : Migration := partial (str "202002010000-add-col").
Definition hotfix : Migration := partial (str "202001150000-hotfix").

Fixpoint lookup (files : list (gostring * gostring)) (name : gostring)
    : option gostring :=
  match files with
  | [] => None
  | (n, text) :: rest => if eqb n name then Some text else lookup rest name
  end.

(** A database that takes every statement but those [bad] rejects,
    over the given files; the transaction steps fail as told. *)
Definition env (files : list (gostring * gostring)) (bad : gostring -> bool)
    (insert_err commit_err : option error) : Env :=
  {| stat := fun name =>
               match lookup files name with
               | Some _ => true
               | None => false
               end;
     read := fun name =>
               match lookup files name with
               | Some text => inl text
               | None => inr (PathError name)
               end;
     answer := fun _ _ sql =>
                 if bad sql
                 then {| applied := false;
                         err := Some (DriverError (str "syntax error")) |}
                 else {| applied := true; err := None |};
     begin_error := None;
     insert_error := insert_err;
     commit_error := commit_err |}.

Definition up_sql : gostring := str "migrations/202001010000-init/up.sql".
Definition notx_sql : gostring :=
  str "migrations/202001010000-init/notx.sql".

Definition create_a : gostring := str "CREATE TABLE a;" ++ [LF].
Definition create_b : gostring := str "CREATE TABLE b;" ++ [LF].
Definition bad_stmt : gostring := str "BAD;" ++ [LF].
Definition create_index : gostring :=
  str "CREATE INDEX CONCURRENTLY i ON t (c);" ++ [LF].
Definition go : gostring := str "GO" ++ [LF].

Definition is_bad (sql : gostring) : bool := eqb sql bad_stmt.
Definition none_bad (sql : gostring) : bool := false.

(** A script whose middle segment is blank. *)
Definition blank_middle : gostring :=
  create_a ++ go ++ str " " ++ [LF] ++ go ++ create_b.

(** A script whose second statement the database rejects. *)
Definition second_fails : gostring := create_a ++ go ++ bad_stmt.

(** A configuration that sets the batch separator to [;;], and a
    script written with it. *)
Definition ctx_semis : AppContext :=
  {| Options := options (str "app")
                  (parse_BatchSeparator (Some (str ";;"))) |}.

Definition semis_script : gostring :=
  create_a ++ str ";;" ++ [LF] ++ create_b.

End Sample.

(** ** Regular expressions ([regexp]) and the directory listings *)

Module Regex.

(** The patterns used here need classes of bytes, concatenation and
    repetition only. *)
Inductive re : Type :=
| Void
| Eps
| Chr (p : ascii -> bool)
| Cat (r1 r2 : re)
| Alt (r1 r2 : re)
| Star (r : re).

Definition Plus (r : re) : re := Cat r (Star r).

Fixpoint Lit (s : gostring) : re :=
  match s with
  | [] => Eps
  | c :: s' => Cat (Chr (Ascii.eqb c)) (Lit s')
  end.

(** The texts a pattern matches from end to end. *)
Inductive matches : re -> gostring -> Prop :=
| M_Eps : matches Eps []
| M_Chr p c : p c = true -> matches (Chr p) [c]
| M_Cat r1 r2 s1 s2 :
    matches r1 s1 -> matches r2 s2 -> matches (Cat r1 r2) (s1 ++ s2)
| M_AltL r1 r2 s : matches r1 s -> matches (Alt r1 r2) s
| M_AltR r1 r2 s : matches r2 s -> matches (Alt r1 r2) s
| M_Star0 r : matches (Star r) []
| M_StarS r s1 s2 :
    matches r s1 -> matches (Star r) s2 -> matches (Star r) (s1 ++ s2).

(** The matcher, by derivatives. *)
Fixpoint nullable (r : re) : bool :=
  match r with
  | Void => false
  | Eps => true
  | Chr _ => false
  | Cat r1 r2 => nullable r1 && nullable r2
  | Alt r1 r2 => nullable r1 || nullable r2
  | Star _ => true
  end.

Fixpoint deriv (c : ascii) (r : re) : re :=
  match r with
  | Void => Void
  | Eps => Void
  | Chr p => if p c then Eps else Void
  | Cat r1 r2 =>
      if nullable r1 then Alt (Cat (deriv c r1) r2) (deriv c r2)
      else Cat (deriv c r1) r2
  | Alt r1 r2 => Alt (deriv c r1) (deriv c r2)
  | Star r1 => Cat (deriv c r1) (Star r1)
  end.

Fixpoint full_match (r : re) (s : gostring) : bool :=
  match s with
  | [] => nullable r
  | c :: s' => full_match (deriv c r) s'
  end.

(** [MatchString] for a pattern [r$] (no flags): some part of the text
    that reaches its end matches [r]. *)
Definition MatchString_to_end (r : re) (s : gostring) : bool :=
  existsb (fun i => full_match r (skipn i s)) (seq 0 (S (List.length s))).

Definition between (lo hi : Z) (c : ascii) : bool :=
  (lo <=? code c) && (code c <=? hi).

(** [[0-9]]. *)
Definition is_digit (c : ascii) : bool := between 48 57 c.

(** [\w]: [[0-9A-Za-z_]]. *)
Definition is_word (c : ascii) : bool :=
  is_digit c || between 65 90 c || between 97 122 c || (code c =? 95).

(** [[\w\-]]. *)
Definition is_word_or_dash (c : ascii) : bool :=
  is_word c || Ascii.eqb c "-"%char.

(** [.] (no flags): anything but a line feed.  Exact for ASCII text,
    where a character is a byte. *)
Definition is_dot (c : ascii) : bool := negb (Ascii.eqb c LF).

(** The text is ASCII. *)
Definition is_ascii_text (s : gostring) : bool :=
  forallb (fun c => code c <? 128) s.

Definition slash : ascii := "/"%char.

(** [reMigrationDir], the pattern [[0-9]+-[\w\-]+$], up to the [$]. *)
Definition reMigrationDir : re :=
  Cat (Plus (Chr is_digit))
      (Cat (Chr (Ascii.eqb "-"%char)) (Plus (Chr is_word_or_dash))).

(** [reSQLFile], the pattern [[\w\-]+.sql$], up to the [$]. *)
Definition reSQLFile : re :=
  Cat (Plus (Chr is_word_or_dash)) (Cat (Chr is_dot) (Lit (str "sql"))).

End Regex.

Module Listing.
Import Regex.

(** One call [filepath.Walk] makes to the function it is given: the
    path, and either the file's name and whether it is a directory, or
    the error met there.  A walk is the list of these calls, in the
    order [Walk] makes them; it ends at the first call whose function
    returns an error. *)
Record visit := {
  v_path : gostring;
  v_name : gostring;       (* [info.Name()] *)
  v_isDir : bool;          (* [info.IsDir()] *)
  v_err : option error }.

(** The test of [getMigrationSubDirectories] on a visit. *)
Definition is_migration_dir (v : visit) : bool :=
  v_isDir v && MatchString_to_end reMigrationDir (v_path v).

(** No call of the walk reports an error. *)
Definition no_error (visits : list visit) : bool :=
  forallb (fun v => match v_err v with None => true | Some _ => false end)
    visits.

(** The walk of [getMigrationSubDirectories]. *)
Fixpoint walk_migration_dirs (visits : list visit) (files : list gostring)
    : list gostring * option error :=
  match visits with
  | [] => (files, None)
  | v :: rest =>
      match v_err v with
      | Some e => (files, Some e)
      | None =>
          if v_isDir v && MatchString_to_end reMigrationDir (v_path v)
          then walk_migration_dirs rest (files ++ [v_name v])
          else walk_migration_dirs rest files
      end
  end.

Definition getMigrationSubDirectories (visits : list visit)
    : list gostring * option error :=
  walk_migration_dirs visits [].

(** The walk of [getSprocFiles]. *)
Fixpoint walk_sproc_files (visits : list visit) (files : list gostring)
    : list gostring * option error :=
  match visits with
  | [] => (files, None)
  | v :: rest =>
      match v_err v with
      | Some e => (files, Some e)
      | None =>
          if negb (v_isDir v) && MatchString_to_end reSQLFile (v_name v)
          then walk_sproc_files rest (files ++ [v_name v])
          else walk_sproc_files rest files
      end
  end.

Definition getSprocFiles (visits : list visit)
    : list gostring * option error :=
  walk_sproc_files visits [].

(** [getPartialLocalMigrations]: a [*os.PathError] of the walk is
    taken for "no migrations yet". *)
Definition getPartialLocalMigrations (visits : list visit)
    : list Migration * option error :=
  match getMigrationSubDirectories visits with
  | (dirs, None) => (map partial dirs, None)
  | (_, Some (PathError _)) => ([], None)
  | (_, Some e) => ([], Some e)
  end.

(** A walk of a migrations directory. *)
Definition dir_visit (path name : gostring) : visit :=
  {| v_path := path; v_name := name; v_isDir := true; v_err := None |}.

Definition file_visit (path name : gostring) : visit :=
  {| v_path := path; v_name := name; v_isDir := false; v_err := None |}.

Definition sample_walk : list visit :=
  [ dir_visit (str "migrations/") (str "migrations");
    dir_visit (str "migrations/202001010000-init") (str "202001010000-init");
    file_visit (str "migrations/202001010000-init/up.sql") (str "up.sql");
    dir_visit (str "migrations/_init") (str "_init");
    dir_visit (str "migrations/sprocs") (str "sprocs") ].

End Listing.

(** ** Reference notions for the properties below *)

Module Reference.

(** [strings.Join]: the segments with [sep] between them. *)
Fixpoint join (sep : gostring) (segments : list gostring) : gostring :=
  match segments with
  | [] => []
  | a :: rest =>
      match rest with
      | [] => a
      | _ :: _ => a ++ sep ++ join sep rest
      end
  end.

(** Line and column after reading [text] from line [l], column [c],
    counting line feeds only: the position an editor shows. *)
Fixpoint plain_scan (text : gostring) (l c : Z) : Z * Z :=
  match text with
  | [] => (l, c)
  | ch :: rest =>
      if Ascii.eqb ch LF then plain_scan rest (l + 1) 0
      else plain_scan rest l (c + 1)
  end.

(** The statements of a trace, in the order they were sent. *)
Fixpoint sent (t : list event) : list gostring :=
  match t with
  | [] => []
  | EvExec _ sql :: rest => sql :: sent rest
  | _ :: rest => sent rest
  end.

(** A segment the executor sends on: one that is not white space only. *)
Definition sendable (segment : gostring) : bool := negb (Str.IsEmpty segment).

(** A segment of white space that is not the empty segment. *)
Definition blank (segment : gostring) : bool :=
  Str.IsEmpty segment && negb (eqb segment []).


(** The states of the transaction of one run. *)
Definition tx_begun : option txn :=
  Some {| pending := []; committed := false; rolledback := false |}.
Definition tx_committed : option txn :=
  Some {| pending := []; committed := true; rolledback := false |}.
Definition tx_rolled : option txn :=
  Some {| pending := []; committed := false; rolledback := true |}.

(** The ledger row of a migration. *)
Definition row_of (m : Migration) : effect :=
  LedgerRow (Name m) (UpScript m) (DownScript m) (NoTransactionScript m).

(** The calls that can follow the up script of a migration. *)
Definition commit_ending (name : gostring) : list event :=
  [EvInsert name; EvCommit].

Definition rollback_endings (name : gostring) : list (list event) :=
  [ [EvRollback];
    [EvInsert name; EvRollback];
    [EvInsert name; EvCommit; EvRollback] ].

End Reference.
Import Reference.

(** * Properties *)

Module GoStringFacts.

Lemma eqb_eq a b : eqb a b = true <-> a = b.
Proof.
  revert b; induction a as [|x a IH]; intros [|y b]; simpl;
    try (split; [discriminate | discriminate]); try tauto.
  rewrite andb_true_iff, Ascii.eqb_eq, IH.
  split; [intros [-> ->]; reflexivity | intros H; inversion H; auto].
Qed.

Lemma eqb_refl a : eqb a a = true.
Proof. apply eqb_eq; reflexivity. Qed.

Lemma eqb_neq a b : eqb a b = false <-> a <> b.
Proof.
  rewrite <- eqb_eq. destruct (eqb a b); split; congruence.
Qed.

Lemma len_app a b : len (a ++ b) = len a + len b.
Proof. unfold len. rewrite length_app. lia. Qed.

Lemma len_nonneg a : 0 <= len a.
Proof. unfold len. lia. Qed.

Lemma len_cons c a : len (c :: a) = len a + 1.
Proof. unfold len. simpl List.length. lia. Qed.

Lemma byte_at_middle pre c r : byte_at (pre ++ c :: r) (len pre) = c.
Proof.
  unfold byte_at, len. rewrite Nat2Z.id.
  rewrite app_nth2 by lia. rewrite Nat.sub_diag. reflexivity.
Qed.

End GoStringFacts.
Import GoStringFacts.

Module GoIntFacts.

Lemma wrap_in_range z : in_range z = true -> wrap z = z.
Proof.
  unfold in_range, wrap, min_int, max_int.
  rewrite andb_true_iff, !Z.leb_le. intros [H1 H2].
  rewrite Z.mod_small; lia.
Qed.

Lemma Atoi_in_range s n : Atoi s = inl n -> in_range n = true.
Proof.
  unfold Atoi.
  destruct (match s with
            | "-"%char :: r => (true, r)
            | "+"%char :: r => (false, r)
            | _ => (false, s)
            end) as [neg body].
  destruct body as [|c r]; [discriminate|].
  destruct (digits 0 (c :: r)) as [m|]; [|discriminate].
  destruct (in_range (if neg then - m else m)) eqn:E; [|discriminate].
  intros H; inversion H; subst; exact E.
Qed.

(** Below the largest [int] the increment does not wrap. *)
Lemma wrap_succ n : in_range n = true -> n < max_int -> wrap (n + 1) = n + 1.
Proof.
  intros H Hlt. apply wrap_in_range.
  unfold in_range, min_int, max_int in *.
  rewrite andb_true_iff, !Z.leb_le in *. lia.
Qed.

End GoIntFacts.
Import GoIntFacts.

Module LocatorFacts.
Import Locator.

Lemma loop_stops fuel script max position v :
  running max position v = false ->
  loop fuel script max position v = Some v.
Proof. intros H. destruct fuel; simpl; rewrite H; reflexivity. Qed.

Lemma loop_step fuel script max position v :
  running max position v = true ->
  loop (S fuel) script max position v
  = loop fuel script max position (body script max v).
Proof. intros H. simpl. rewrite H. reflexivity. Qed.

Lemma scan_reached rest idx target l c :
  target <= idx -> locate_scan rest idx target l c = (l, c).
Proof.
  intros H. destruct rest; simpl;
    (destruct (target <=? idx) eqn:E; [reflexivity | apply Z.leb_gt in E; lia]).
Qed.

Lemma scan_cons x rest1 idx target l c :
  locate_scan (x :: rest1) idx target l c =
  if target <=? idx then (l, c)
  else if Ascii.eqb x CR then
    match rest1 with
    | [] => (l, c)
    | c2 :: rest2 =>
        if Ascii.eqb c2 LF then
          match rest2 with
          | [] => (l, c)
          | _ :: _ => locate_scan rest2 (idx + 2) target (l + 1) 0
          end
        else locate_scan rest1 (idx + 1) target (l + 1) 0
    end
  else if Ascii.eqb x LF then
    match rest1 with
    | [] => (l, c)
    | _ :: _ => locate_scan rest1 (idx + 1) target (l + 1) 0
    end
  else locate_scan rest1 (idx + 1) target l (c + 1).
Proof. reflexivity. Qed.

(** Settle the next bound check of the goal by arithmetic. *)
Ltac decide_ltb :=
  match goal with
  | |- context [Z.ltb ?a ?b] =>
      let E := fresh "E" in
      destruct (Z.ltb a b) eqn:E;
      [apply Z.ltb_lt in E | apply Z.ltb_ge in E];
      cbn [andb] in *; try (exfalso; lia)
  end.

(** The loop has left the script: it returns the variables as they
    are. *)
Ltac stops :=
  eexists; split;
  [ apply loop_stops; unfold running; simpl i;
    apply andb_false_iff; left; apply Z.ltb_ge; lia
  | reflexivity ].

(** The loop of the code, standing at index [len pre] of
    [pre ++ rest], and the described scan of [rest] agree; one pass
    per remaining byte is enough for the loop to end. *)
Lemma loop_scan fuel : forall pre rest position l c,
  (List.length rest <= fuel)%nat ->
  exists v,
    loop fuel (pre ++ rest) (len (pre ++ rest)) position
      {| i := len pre; line := l; column := c |} = Some v /\
    (line v, column v) = locate_scan rest (len pre) position l c.
Proof.
  induction fuel as [|fuel IH]; intros pre rest position l c Hfuel.
  - destruct rest as [|x rest]; [|simpl in Hfuel; lia].
    eexists; split.
    + apply loop_stops. unfold running; simpl.
      rewrite app_nil_r. rewrite Z.ltb_irrefl. reflexivity.
    + simpl. destruct (position <=? len pre); reflexivity.
  - destruct rest as [|x rest1].
    { eexists; split.
      + apply loop_stops. unfold running; simpl.
        rewrite app_nil_r. rewrite Z.ltb_irrefl. reflexivity.
      + simpl. destruct (position <=? len pre); reflexivity. }
    destruct (position <=? len pre) eqn:Epos.
    { apply Z.leb_le in Epos. eexists; split.
      + apply loop_stops. unfold running; simpl.
        replace (len pre <? position) with false
          by (symmetry; apply Z.ltb_ge; lia).
        apply andb_false_r.
      + rewrite scan_reached by lia. reflexivity. }
    apply Z.leb_gt in Epos.
    assert (Hmax : len (pre ++ x :: rest1) = len pre + len rest1 + 1)
      by (rewrite len_app, len_cons; lia).
    pose proof (len_nonneg rest1) as Hr1.
    rewrite loop_step.
    2:{ unfold running; simpl. rewrite Hmax.
        apply andb_true_iff; split; apply Z.ltb_lt; lia. }
    assert (Hnext : forall l' c',
      exists v,
        loop fuel (pre ++ x :: rest1) (len (pre ++ x :: rest1)) position
          {| i := len pre + 1; line := l'; column := c' |} = Some v /\
        (line v, column v) = locate_scan rest1 (len pre + 1) position l' c').
    { intros l' c'.
      destruct (IH (pre ++ [x]) rest1 position l' c') as [v [Hv1 Hv2]].
      { simpl in Hfuel; lia. }
      exists v.
      assert (E1 : len (pre ++ [x]) = len pre + 1)
        by (rewrite len_app; reflexivity).
      rewrite E1 in Hv1, Hv2.
      rewrite <- app_assoc in Hv1. simpl app in Hv1.
      split; assumption. }
    unfold body. cbv zeta. simpl i. simpl line. simpl column.
    rewrite byte_at_middle.
    rewrite scan_cons.
    replace (position <=? len pre) with false
      by (symmetry; apply Z.leb_gt; lia).
    destruct (Ascii.eqb x CR) eqn:ECR.
    + (* carriage return *)
      destruct rest1 as [|x2 rest2].
      * change (len []) with 0 in Hmax.
        repeat decide_ltb. stops.
      * assert (Hx2 : byte_at (pre ++ x :: x2 :: rest2) (len pre + 1) = x2).
        { replace (pre ++ x :: x2 :: rest2) with ((pre ++ [x]) ++ x2 :: rest2)
            by (rewrite <- app_assoc; reflexivity).
          replace (len pre + 1) with (len (pre ++ [x]))
            by (rewrite len_app; reflexivity).
          apply byte_at_middle. }
        rewrite Hx2.
        rewrite len_cons in Hmax. pose proof (len_nonneg rest2) as Hr2.
        destruct (Ascii.eqb x2 LF) eqn:ELF.
        -- destruct rest2 as [|x3 rest3].
           ++ change (len []) with 0 in Hmax.
              repeat decide_ltb. stops.
           ++ rewrite len_cons in Hmax. pose proof (len_nonneg rest3) as Hr3.
              repeat decide_ltb.
              destruct (IH (pre ++ [x; x2]) (x3 :: rest3) position (l + 1) 0)
                as [v [Hv1 Hv2]].
              { simpl in Hfuel |- *; lia. }
              exists v.
              assert (E2 : len (pre ++ [x; x2]) = len pre + 2)
                by (rewrite len_app; reflexivity).
              rewrite E2 in Hv1, Hv2.
              rewrite <- app_assoc in Hv1. simpl app in Hv1.
              replace (len pre + 1 + 1) with (len pre + 2) by lia.
              split; assumption.
        -- repeat decide_ltb. apply Hnext.
    + destruct (Ascii.eqb x LF) eqn:ELF.
      * destruct rest1 as [|x2 rest2].
        -- change (len []) with 0 in Hmax.
           repeat decide_ltb. stops.
        -- rewrite len_cons in Hmax. pose proof (len_nonneg rest2) as Hr2.
           repeat decide_ltb. apply Hnext.
      * apply Hnext.
Qed.

Lemma extractLineColumn_parsed script pos n :
  Atoi pos = inl n ->
  exists v,
    loop (List.length script) script (len script) (wrap (n + 1))
      {| i := 0; line := 1; column := 0 |} = Some v /\
    extractLineColumn script pos = Some (line v, column v, None) /\
    (line v, column v) = locate_scan script 0 (wrap (n + 1)) 1 0.
Proof.
  intros Hpos.
  destruct (loop_scan (List.length script) [] script (wrap (n + 1)) 1 0)
    as [v [Hv1 Hv2]]; [lia|].
  simpl app in Hv1. change (len []) with 0 in Hv1, Hv2.
  exists v. split; [exact Hv1|]. split; [|exact Hv2].
  unfold extractLineColumn. rewrite Hpos. cbv zeta. rewrite Hv1.
  reflexivity.
Qed.

(** C10: a position that is no integer gives line 0, column 0 and
    the parse error; a position that is an integer gives a line, a
    column and no error.  In both cases the function returns. *)
Theorem extractLineColumn_error script pos :
  (forall e, Atoi pos = inr e ->
     extractLineColumn script pos = Some (0, 0, Some e)) /\
  (forall n, Atoi pos = inl n ->
     exists l c, extractLineColumn script pos = Some (l, c, None)).
Proof.
  split.
  - intros e He. unfold extractLineColumn. rewrite He. reflexivity.
  - intros n Hn.
    destruct (extractLineColumn_parsed script pos n Hn) as [v [_ [Hv _]]].
    exists (line v), (column v). exact Hv.
Qed.

Lemma extractLineColumn_error_witness :
  extractLineColumn (str "select 1") (str "1x")
  = Some (0, 0, Some (NumError (str "1x"))) /\
  exists l c,
    extractLineColumn (str "select 1") (str "8") = Some (l, c, None).
Proof.
  split.
  - apply (proj1 (extractLineColumn_error (str "select 1") (str "1x"))).
    reflexivity.
  - apply (proj2 (extractLineColumn_error (str "select 1") (str "8")) 8).
    reflexivity.
Defined.

Lemma characters_single_bytes s :
  single_bytes s = true -> characters s = map (fun c => [c]) s.
Proof.
  induction s as [|c r IH]; intros H; [reflexivity|].
  simpl in H. apply andb_true_iff in H. destruct H as [_ Hr].
  cbn [characters]. rewrite (IH Hr).
  destruct r as [|x r']; [reflexivity|]. cbn [map].
  simpl in Hr. apply andb_true_iff in Hr. destruct Hr as [Hx _].
  apply Z.ltb_lt in Hx.
  replace (is_continuation x) with false; [reflexivity|].
  symmetry. unfold is_continuation. apply andb_false_iff. left.
  apply Z.leb_gt. exact Hx.
Qed.

Lemma eqb_single x y : eqb [x] [y] = Ascii.eqb x y.
Proof. simpl. apply andb_true_r. Qed.

(** On one-byte characters the scan of the description is the scan
    of the bytes. *)
Lemma locate_chars_bytes k : forall rest idx target l c,
  (List.length rest <= k)%nat ->
  locate_chars (map (fun ch => [ch]) rest) idx target l c
  = locate_scan rest idx target l c.
Proof.
  induction k as [|k IH]; intros rest idx target l c Hk.
  - destruct rest; [reflexivity | simpl in Hk; lia].
  - destruct rest as [|x rest1]; [reflexivity|].
    rewrite scan_cons. cbn [map locate_chars]. rewrite !eqb_single.
    assert (Hone : forall l1 c1,
              locate_chars (map (fun ch => [ch]) rest1) (idx + 1) target l1 c1
              = locate_scan rest1 (idx + 1) target l1 c1).
    { intros l1 c1. apply IH. simpl in Hk. lia. }
    destruct (target <=? idx); [reflexivity|].
    destruct (Ascii.eqb x CR).
    + destruct rest1 as [|x2 rest2]; [reflexivity|].
      cbn [map]. rewrite eqb_single.
      destruct (Ascii.eqb x2 LF); [|apply Hone].
      destruct rest2 as [|x3 rest3]; [reflexivity|].
      apply (IH (x3 :: rest3)). simpl in Hk |- *. lia.
    + destruct (Ascii.eqb x LF); [|apply Hone].
      destruct rest1 as [|x2 rest2]; [reflexivity|]. apply Hone.
Qed.

(** C9, as amended: for a script of one-byte characters and an offset
    that parses to an integer below the largest [int], the locator
    returns what the described scan computes from the offset plus one,
    with no error. *)
Theorem extractLineColumn_locate script pos n :
  Atoi pos = inl n ->
  n < max_int ->
  single_bytes script = true ->
  extractLineColumn script pos
  = Some (fst (locate_spec script n), snd (locate_spec script n), None).
Proof.
  intros Hpos Hlt Hascii.
  destruct (extractLineColumn_parsed script pos n Hpos) as [v [_ [Hv Hs]]].
  rewrite wrap_succ in Hs by (eauto using Atoi_in_range).
  unfold locate_spec. rewrite (characters_single_bytes script Hascii).
  rewrite (locate_chars_bytes (List.length script)) by lia.
  rewrite <- Hs. exact Hv.
Qed.

Lemma extractLineColumn_locate_witness :
  extractLineColumn (str "ab" ++ [CR; LF] ++ str "cd") (str "4")
  = Some (2, 1, None).
Proof.
  apply (extractLineColumn_locate (str "ab" ++ [CR; LF] ++ str "cd")
           (str "4") 4).
  - reflexivity.
  - reflexivity.
  - reflexivity.
Defined.

(** C9, as stated, fails at the largest [int]: the increment wraps
    round to the smallest one, the loop does not run and the result is
    line 1, column 0, where the described scan walks the whole script. *)
Lemma extractLineColumn_locate_counterexample :
  ~ (forall script pos n,
       Atoi pos = inl n ->
       extractLineColumn script pos
       = Some (fst (locate_spec script n), snd (locate_spec script n),
               None)).
Proof.
  intros H.
  specialize (H (str "abc") (str "9223372036854775807") max_int eq_refl).
  vm_compute in H. discriminate H.
Qed.

(** It also fails on a character of more than one byte, which the loop
    counts byte by byte: in the text [e-acute, line feed, x] (bytes C3
    A9 0A 78) at offset 1 the loop stops after the two bytes of the
    first character, at line 1, column 2, where the described scan has
    read two characters and stands at line 2, column 0. *)
Lemma extractLineColumn_bytes_not_characters :
  let script := ["195"%char; "169"%char; LF; "x"%char] in
  characters script = [["195"%char; "169"%char]; [LF]; ["x"%char]] /\
  extractLineColumn script (str "1") = Some (1, 2, None) /\
  locate_spec script 1 = (2, 0).
Proof. repeat split; reflexivity. Qed.

(** What the code returns there. *)
Lemma extractLineColumn_max_offset script :
  extractLineColumn script (str "9223372036854775807") = Some (1, 0, None).
Proof.
  assert (Hpos : Atoi (str "9223372036854775807") = inl max_int)
    by reflexivity.
  destruct (extractLineColumn_parsed script _ _ Hpos) as [v [Hl [Hv _]]].
  rewrite loop_stops in Hl.
  - inversion Hl; subst v. exact Hv.
  - unfold running. simpl i. apply andb_false_iff. right. reflexivity.
Qed.

End LocatorFacts.

Module ReconcileFacts.
Import Reconcile.

Lemma find_from_absent l name : forall i,
  0 <= i -> (find_from l name i = -1 <-> present name l = false).
Proof.
  induction l as [|m l IH]; intros i Hi; simpl.
  - tauto.
  - destruct (eqb (Name m) name) eqn:E; simpl.
    + split; [lia | discriminate].
    + apply IH. lia.
Qed.

(** [migrationFindIndexOf] answers -1 exactly for a name the list
    does not have. *)
Lemma migrationFindIndexOf_absent l name :
  migrationFindIndexOf l name = -1 <-> present name l = false.
Proof.
  unfold migrationFindIndexOf.
  destruct (0 <? Z.of_nat (List.length l)) eqn:E.
  - apply find_from_absent. lia.
  - destruct l; [|simpl in E; apply Z.ltb_ge in E; lia].
    simpl. tauto.
Qed.

Lemma not_local_iff l m :
  not_local l m = true <-> present (Name m) l = false.
Proof.
  unfold not_local. rewrite Z.eqb_eq. apply migrationFindIndexOf_absent.
Qed.

Lemma unapplied_iff db lastMigration m :
  unapplied db lastMigration m = true <->
  ltb (Name m) (Name lastMigration) = true /\ present (Name m) db = false.
Proof.
  unfold unapplied. rewrite andb_true_iff, Z.eqb_eq.
  rewrite migrationFindIndexOf_absent. reflexivity.
Qed.

Lemma logged_nil w : logged w [] = w.
Proof. destruct w; unfold logged; simpl. rewrite app_nil_r. reflexivity. Qed.

Lemma logged_logged w a b : logged (logged w a) b = logged w (a ++ b).
Proof. unfold logged; simpl. rewrite app_assoc. reflexivity. Qed.

Lemma Info_logged msg w : Info msg w = (tt, logged w [msg]).
Proof. reflexivity. Qed.

(** The first loop: the flag is raised by, and one line is logged
    for, each ledger entry that is no local migration. *)
Lemma check_db_spec local db : forall inError w,
  check_db local db inError w =
  (inError || existsb (not_local local) db,
   logged w (map (fun m => msg_not_local (Name m))
               (filter (not_local local) db))).
Proof.
  induction db as [|m db IH]; intros inError w.
  - simpl. rewrite orb_false_r, logged_nil. reflexivity.
  - simpl check_db. fold (not_local local m).
    destruct (not_local local m) eqn:E.
    + unfold bind. rewrite Info_logged, IH. simpl.
      rewrite E, logged_logged, orb_true_r. reflexivity.
    + rewrite IH. simpl. rewrite E. reflexivity.
Qed.

Lemma check_local_cons db lastMigration m local inError w :
  check_local db lastMigration (m :: local) inError w =
  if unapplied db lastMigration m
  then bind (Info (msg_younger (Name m) (Name lastMigration)))
         (fun _ => check_local db lastMigration local true) w
  else check_local db lastMigration local inError w.
Proof.
  simpl. unfold unapplied.
  destruct (ltb (Name m) (Name lastMigration));
    destruct (migrationFindIndexOf db (Name m) =? -1); reflexivity.
Qed.

(** The second loop, likewise for the local migrations older than
    the last ledger entry that the ledger does not have. *)
Lemma check_local_spec db lastMigration local : forall inError w,
  check_local db lastMigration local inError w =
  (inError || existsb (unapplied db lastMigration) local,
   logged w (map (fun m => msg_younger (Name m) (Name lastMigration))
               (filter (unapplied db lastMigration) local))).
Proof.
  induction local as [|m local IH]; intros inError w.
  - simpl. rewrite orb_false_r, logged_nil. reflexivity.
  - rewrite check_local_cons. simpl existsb. simpl filter.
    destruct (unapplied db lastMigration m) eqn:E.
    + unfold bind. rewrite Info_logged, IH. simpl.
      rewrite logged_logged, orb_true_r. reflexivity.
    + rewrite IH. reflexivity.
Qed.

Lemma verify_nonempty ctx local first rest w :
  let db := first :: rest in
  verifyMigrationsHistory ctx local db w =
  (if existsb (not_local local) db
      || existsb (unapplied db (last db first)) local
   then Some (Errorf (msg_out_of_sync (Database (Conn (Options ctx)))))
   else None,
   logged w
     (map (fun m => msg_not_local (Name m)) (filter (not_local local) db)
      ++ map (fun m => msg_younger (Name m) (Name (last db first)))
           (filter (unapplied db (last db first)) local))).
Proof.
  intros db. subst db. unfold verifyMigrationsHistory, bind.
  rewrite check_db_spec, check_local_spec.
  rewrite logged_logged. rewrite orb_false_l.
  destruct (existsb (not_local local) (first :: rest)
            || existsb (unapplied (first :: rest)
                          (last (first :: rest) first)) local);
    reflexivity.
Qed.

(** The reconciliation check touches nothing but the log. *)
Lemma verify_pure ctx local db w :
  exists msgs,
    snd (verifyMigrationsHistory ctx local db w) = logged w msgs.
Proof.
  destruct db as [|first rest].
  - exists []. rewrite logged_nil. reflexivity.
  - rewrite verify_nonempty. eexists. reflexivity.
Qed.

(** C5, as amended: when the ledger has an entry that is no local
    migration, the check fails; each such name is reported in a log
    line of its own, and the error returned is the fixed message that
    names the database only. *)
Theorem verify_ledger_not_local ctx local ledger w :
  ascending local = true ->
  ascending ledger = true ->
  ledger <> [] ->
  (exists m, In m ledger /\ present (Name m) local = false) ->
  fst (verifyMigrationsHistory ctx local ledger w)
  = Some (Errorf (msg_out_of_sync (Database (Conn (Options ctx))))) /\
  forall m, In m ledger -> present (Name m) local = false ->
    In (msg_not_local (Name m))
       (log (snd (verifyMigrationsHistory ctx local ledger w))).
Proof.
  intros _ _ Hne [m0 [Hin0 Habs0]].
  destruct ledger as [|first rest]; [contradiction|].
  rewrite verify_nonempty. cbv zeta. cbn [fst snd].
  assert (Hex : existsb (not_local local) (first :: rest) = true).
  { apply existsb_exists. exists m0. split; [exact Hin0|].
    apply not_local_iff. exact Habs0. }
  rewrite Hex. simpl orb. split; [reflexivity|].
  intros m Hin Habs. unfold logged. cbn [log].
  apply in_or_app. right. apply in_or_app. left.
  apply in_map_iff. exists m. split; [reflexivity|].
  apply filter_In. split; [exact Hin|]. apply not_local_iff. exact Habs.
Qed.

Lemma verify_ledger_not_local_witness :
  fst (verifyMigrationsHistory Sample.ctx [Sample.init]
         [Sample.init; Sample.add_col] fresh)
  = Some (Errorf (msg_out_of_sync (str "app"))) /\
  forall m, In m [Sample.init; Sample.add_col] ->
    present (Name m) [Sample.init] = false ->
    In (msg_not_local (Name m))
       (log (snd (verifyMigrationsHistory Sample.ctx [Sample.init]
                    [Sample.init; Sample.add_col] fresh))).
Proof.
  apply (verify_ledger_not_local Sample.ctx [Sample.init]
           [Sample.init; Sample.add_col] fresh).
  - reflexivity.
  - reflexivity.
  - discriminate.
  - exists Sample.add_col. split; [right; left; reflexivity | reflexivity].
Defined.

(** C5, as stated, fails: the error does not carry the offending
    names.  With a ledger entry "202001010000-init" and no local
    migration the error reads "Local migrations are out of sync with
    app database, rename as needed". *)
Lemma verify_error_names_counterexample :
  ~ (forall ctx local ledger w,
       ascending local = true ->
       ascending ledger = true ->
       ledger <> [] ->
       (exists m, In m ledger /\ present (Name m) local = false) ->
       exists e,
         fst (verifyMigrationsHistory ctx local ledger w) = Some e /\
         forall m, In m ledger -> present (Name m) local = false ->
           contains (Error_text e) (Name m) = true).
Proof.
  intros H.
  destruct (H Sample.ctx [] [Sample.init] fresh eq_refl eq_refl)
    as [e [He Hnames]].
  - discriminate.
  - exists Sample.init. split; [left; reflexivity | reflexivity].
  - vm_compute in He. inversion He; subst e.
    specialize (Hnames Sample.init (or_introl eq_refl) eq_refl).
    vm_compute in Hnames. discriminate Hnames.
Qed.

(** C6: a local migration older than the last ledger entry and not
    in the ledger makes the check fail; with an empty ledger the check
    succeeds whatever the local migrations are. *)
Theorem verify_local_unapplied ctx local w :
  (forall ledger front lastMigration,
     ledger = front ++ [lastMigration] ->
     ascending local = true ->
     ascending ledger = true ->
     (exists m, In m local /\
                ltb (Name m) (Name lastMigration) = true /\
                present (Name m) ledger = false) ->
     exists e, fst (verifyMigrationsHistory ctx local ledger w) = Some e) /\
  fst (verifyMigrationsHistory ctx local [] w) = None.
Proof.
  split; [|reflexivity].
  intros ledger front lastMigration Hl _ _ [m [Hin [Hlt Habs]]].
  destruct ledger as [|first rest].
  { destruct front; discriminate Hl. }
  rewrite verify_nonempty. cbv zeta. cbn [fst snd].
  assert (Hlast : last (first :: rest) first = lastMigration).
  { rewrite Hl. apply last_last. }
  rewrite Hlast.
  assert (Hex : existsb (unapplied (first :: rest) lastMigration) local
                = true).
  { apply existsb_exists. exists m. split; [exact Hin|].
    apply unapplied_iff. split; assumption. }
  rewrite Hex, orb_true_r. eexists. reflexivity.
Qed.

Lemma verify_local_unapplied_witness :
  (exists e,
     fst (verifyMigrationsHistory Sample.ctx
            [Sample.init; Sample.hotfix; Sample.add_col]
            [Sample.init; Sample.add_col] fresh) = Some e) /\
  fst (verifyMigrationsHistory Sample.ctx
         [Sample.init; Sample.hotfix; Sample.add_col] [] fresh) = None.
Proof.
  split.
  - apply (proj1 (verify_local_unapplied Sample.ctx
                    [Sample.init; Sample.hotfix; Sample.add_col] fresh)
             [Sample.init; Sample.add_col] [Sample.init] Sample.add_col).
    + reflexivity.
    + reflexivity.
    + reflexivity.
    + exists Sample.hotfix.
      split; [right; left; reflexivity | split; reflexivity].
  - apply (proj2 (verify_local_unapplied Sample.ctx
                    [Sample.init; Sample.hotfix; Sample.add_col] fresh)).
Defined.

End ReconcileFacts.

Module SplitterFacts.

Lemma line_startb_iff s i : line_startb s i = true <-> line_start true s i.
Proof.
  destruct i as [|j]; simpl; [tauto|].
  destruct (nth_error s j) as [c|]; [|split; discriminate].
  rewrite Ascii.eqb_eq. split; [intros ->; reflexivity|].
  intros H; inversion H; reflexivity.
Qed.

Lemma matches_at_iff s i : matches_at s i = true <-> separator_at s i.
Proof.
  unfold matches_at, separator_at.
  rewrite andb_true_iff, line_startb_iff. reflexivity.
Qed.

Lemma has_prefix_length s p :
  has_prefix s p = true -> (List.length p <= List.length s)%nat.
Proof.
  revert s; induction p as [|y p IH]; intros s H; simpl; [lia|].
  destruct s as [|x s]; [discriminate|]. simpl in H.
  apply andb_true_iff in H. destruct H as [_ H].
  apply IH in H. simpl. lia.
Qed.

(** [has_match] decides whether the pattern matches somewhere. *)
Lemma has_match_iff s : has_match s = true <-> exists i, separator_at s i.
Proof.
  unfold has_match. rewrite existsb_exists. split.
  - intros [i [_ H]]. exists i. apply matches_at_iff. exact H.
  - intros [i H]. exists i. split; [|apply matches_at_iff; exact H].
    apply in_seq. split; [lia|]. simpl.
    destruct H as [_ H]. apply has_prefix_length in H.
    destruct (Nat.le_gt_cases i (List.length s)) as [Hle|Hgt]; [lia|].
    rewrite skipn_all2 in H by lia. simpl in H. lia.
Qed.

(** Without a match from the current position on, the splitter
    returns the text as it stands. *)
Lemma split_go_no_match s : forall bol acc,
  (forall i, ~ (line_start bol s i /\
                has_prefix (skipn i s) separator = true)) ->
  split_go bol acc s = [rev acc ++ s].
Proof.
  induction s as [|c r IH]; intros bol acc Hno.
  - simpl. rewrite app_nil_r. reflexivity.
  - cbn [split_go].
    destruct (bol && has_prefix (c :: r) separator) eqn:E.
    + exfalso. apply andb_true_iff in E. destruct E as [Eb Ep].
      apply (Hno O). split; [exact Eb | exact Ep].
    + rewrite IH.
      * simpl. rewrite <- app_assoc. reflexivity.
      * intros i [Hs Hp]. apply (Hno (S i)). split; [|exact Hp].
        destruct i as [|j]; simpl in Hs |- *.
        -- apply Ascii.eqb_eq in Hs. rewrite Hs. reflexivity.
        -- exact Hs.
Qed.

(** C7: the sample script splits in two, and a script without a
    separator match is its own single segment. *)
Theorem Split_segments :
  Split (str "A;" ++ [LF] ++ str "GO" ++ [LF] ++ str "B;" ++ [LF])
  = [str "A;" ++ [LF]; str "B;" ++ [LF]] /\
  forall script, has_match script = false -> Split script = [script].
Proof.
  split; [reflexivity|].
  intros script Hno. unfold Split.
  rewrite split_go_no_match; [reflexivity|].
  intros i H.
  assert (Hm : has_match script = true)
    by (apply has_match_iff; exists i; exact H).
  congruence.
Qed.

Lemma Split_segments_witness :
  Split (str "A;" ++ [LF]) = [str "A;" ++ [LF]].
Proof.
  apply (proj2 Split_segments (str "A;" ++ [LF])). reflexivity.
Defined.

(** The segments come one per separator and one more. *)
Lemma Split_adjacent_separators :
  Split (str "GO" ++ [LF] ++ str "GO" ++ [LF]) = [[]; []; []].
Proof. reflexivity. Qed.

End SplitterFacts.

Module ExecutorFacts.

Lemma conn_only_refl w : conn_only w w.
Proof.
  split; [reflexivity|].
  split; exists []; rewrite app_nil_r; split; reflexivity.
Qed.

Lemma conn_only_trans w1 w2 w3 :
  conn_only w1 w2 -> conn_only w2 w3 -> conn_only w1 w3.
Proof.
  intros [Htx [[d [Hd Hds]] [t [Ht Hts]]]]
         [Htx' [[d' [Hd' Hds']] [t' [Ht' Hts']]]].
  split; [congruence|]. split.
  - exists (d ++ d'). rewrite Hd', Hd, app_assoc. split; [reflexivity|].
    rewrite forallb_app, Hds, Hds'. reflexivity.
  - exists (t ++ t'). rewrite Ht', Ht, app_assoc. split; [reflexivity|].
    rewrite forallb_app, Hts, Hts'. reflexivity.
Qed.

Lemma Info_conn_only msg w : conn_only w (snd (Info msg w)).
Proof.
  split; [reflexivity|].
  split; exists []; simpl; rewrite app_nil_r; split; reflexivity.
Qed.

Lemma Exec_conn_only env sql w : conn_only w (snd (Exec env HConn sql w)).
Proof.
  split; [reflexivity|]. split.
  - simpl. destruct (applied (answer env (durable w) no_pending sql)).
    + exists [Stmt sql]. split; reflexivity.
    + exists []. rewrite app_nil_r. split; reflexivity.
  - exists [EvExec HConn sql]. split; reflexivity.
Qed.

(** A script run on the connection leaves the transaction alone. *)
Lemma exec_statements_conn_only env statements : forall w,
  conn_only w (snd (exec_statements env HConn statements w)).
Proof.
  induction statements as [|statement rest IH]; intros w.
  - apply conn_only_refl.
  - cbn [exec_statements].
    destruct (eqb statement []); [apply IH|].
    destruct (Str.IsEmpty statement); [apply conn_only_refl|].
    unfold bind.
    pose proof (Exec_conn_only env statement w) as HE.
    destruct (Exec env HConn statement w) as [e w1]. simpl snd in HE.
    destruct e as [e|].
    + destruct (contains (Error_text e) (str "no RowsAffected")).
      * eapply conn_only_trans; [exact HE | apply IH].
      * exact HE.
    + eapply conn_only_trans; [exact HE | apply IH].
Qed.

Lemma execScript_conn_only env script w :
  conn_only w (snd (execScript env HConn script w)).
Proof.
  unfold execScript.
  destruct (Z.of_nat (List.length (Split script)) =? 0).
  - apply conn_only_refl.
  - apply exec_statements_conn_only.
Qed.

Lemma execFile_conn_only env ctx filename w :
  conn_only w (snd (execFile env ctx HConn filename w)).
Proof.
  unfold execFile, bind.
  pose proof (Info_conn_only (filename ++ str " ... ") w) as H0.
  destruct (Info (filename ++ str " ... ") w) as [[] w0]. simpl snd in H0.
  destruct (read env filename) as [script|e].
  - pose proof (execScript_conn_only env script w0) as H1.
    destruct (execScript env HConn script w0) as [e w1]. simpl snd in H1.
    destruct e as [e|].
    + pose proof (Info_conn_only [LF] w1) as H2.
      destruct (Info [LF] w1) as [[] w2]. simpl snd in H2 |- *.
      eauto using conn_only_trans.
    + pose proof (Info_conn_only (str "OK" ++ [LF]) w1) as H2.
      destruct (Info (str "OK" ++ [LF]) w1) as [[] w2]. simpl snd in H2 |- *.
      eauto using conn_only_trans.
  - pose proof (Info_conn_only [LF] w0) as H2.
    destruct (Info [LF] w0) as [[] w2]. simpl snd in H2 |- *.
    eauto using conn_only_trans.
Qed.

(** An empty segment is passed over. *)
Lemma exec_statements_empty env conn rest w :
  exec_statements env conn ([] :: rest) w = exec_statements env conn rest w.
Proof. reflexivity. Qed.

(** A segment of white space ends the script: what follows it is
    not run, and no error is returned. *)
Lemma exec_statements_blank env conn blank rest w :
  blank <> [] -> Str.IsEmpty blank = true ->
  exec_statements env conn (blank :: rest) w = (None, w).
Proof.
  intros Hne Hb. cbn [exec_statements].
  apply eqb_neq in Hne. rewrite Hne, Hb. reflexivity.
Qed.

(** C2 fails on the code: of a script whose second segment is a
    blank line, the first statement is run, the third is not, and no
    error is returned. *)
Theorem execScript_blank_segment :
  Split Sample.blank_middle
  = [Sample.create_a; str " " ++ [LF]; Sample.create_b] /\
  execScript (Sample.env [] Sample.none_bad None None) HConn
    Sample.blank_middle fresh
  = (None,
     {| log := []; durable := [Stmt Sample.create_a]; tx := None;
        trace := [EvExec HConn Sample.create_a] |}).
Proof. split; reflexivity. Qed.

(** C8 fails on the code: the configured separator does not reach
    the executor.  Whatever the context, a file is run the same way;
    with [;;] configured a script written with [;;] is sent as one
    statement, and a script written with [GO] is still split. *)
Theorem execFile_separator_fixed :
  (forall env ctx1 ctx2 conn filename w,
     execFile env ctx1 conn filename w
     = execFile env ctx2 conn filename w) /\
  BatchSeparator (Options Sample.ctx_semis) = str ";;" /\
  trace (snd (execFile
                (Sample.env [(Sample.up_sql, Sample.semis_script)]
                   Sample.none_bad None None)
                Sample.ctx_semis HConn Sample.up_sql fresh))
  = [EvExec HConn Sample.semis_script] /\
  trace (snd (execFile
                (Sample.env
                   [(Sample.up_sql,
                     Sample.create_a ++ Sample.go ++ Sample.create_b)]
                   Sample.none_bad None None)
                Sample.ctx_semis HConn Sample.up_sql fresh))
  = [EvExec HConn Sample.create_a; EvExec HConn Sample.create_b].
Proof. repeat split; reflexivity. Qed.

End ExecutorFacts.

Module RunnerFacts.
Import ExecutorFacts.

Lemma stmts_no_row d : forallb is_stmt d = true -> filter is_row d = [].
Proof.
  induction d as [|e d IH]; [reflexivity|]. simpl.
  unfold is_stmt at 1. destruct (is_row e); simpl; [discriminate|exact IH].
Qed.

Lemma ledger_app w w' d :
  durable w' = durable w ++ d -> filter is_row d = [] ->
  ledger w' = ledger w.
Proof.
  intros Hd Hr. unfold ledger. rewrite Hd, filter_app, Hr.
  apply app_nil_r.
Qed.

Lemma conn_exec_not_on_tx t :
  forallb is_conn_exec t = true -> existsb on_tx t = false.
Proof.
  induction t as [|e t IH]; [reflexivity|]. simpl.
  intros H. apply andb_true_iff in H. destruct H as [He Ht].
  rewrite (IH Ht). destruct e as [[|] sql| | | |]; try discriminate He;
    reflexivity.
Qed.

(** The part under the deferred rollback, begun in a new
    transaction: the database only grows, no statement is sent on the
    transaction handle, and a ledger row is added only when the
    function returns no error and the commit went through. *)
Lemma tx_phase env ctx migration w2 m' r w' :
  tx w2 = Some {| pending := []; committed := false; rolledback := false |} ->
  deferring AutoRollback (tx_body env ctx migration) w2 = ((m', r), w') ->
  (exists t, trace w' = trace w2 ++ t /\ existsb on_tx t = false) /\
  exists d, durable w' = durable w2 ++ d /\
    ((r <> None \/ commit_error env <> None) -> filter is_row d = []).
Proof.
  intros Htx. unfold deferring, tx_body, bind.
  pose proof (execFile_conn_only env ctx
                (scriptFilename (Options ctx) migration (str "up.sql")) w2)
    as Hup.
  destruct (execFile env ctx HConn
              (scriptFilename (Options ctx) migration (str "up.sql")) w2)
    as [[upScript e] w3].
  simpl snd in Hup.
  destruct Hup as [Htx3 [[d3 [Hd3 Hs3]] [t3 [Ht3 Hc3]]]].
  rewrite Htx in Htx3. apply stmts_no_row in Hs3.
  apply conn_exec_not_on_tx in Hc3.
  destruct e as [e|].
  { (* the up script failed *)
    unfold ret, AutoRollback. rewrite Htx3. cbn.
    intros H; inversion H; subst; clear H. cbn. split.
    - exists (t3 ++ [EvRollback]). rewrite Ht3, app_assoc.
      split; [reflexivity|]. rewrite existsb_app, Hc3. reflexivity.
    - exists d3. split; [exact Hd3 | intros _; exact Hs3]. }
  unfold InsertLedger.
  destruct (insert_error env) as [e|] eqn:Eins.
  { (* the ledger insert failed *)
    unfold ret, AutoRollback. cbn. rewrite Htx3. cbn.
    intros H; inversion H; subst; clear H. cbn. split.
    - exists (t3 ++ [EvInsert (Name migration); EvRollback]).
      rewrite Ht3, <- !app_assoc.
      split; [reflexivity|]. rewrite existsb_app, Hc3. reflexivity.
    - exists d3. split; [exact Hd3 | intros _; exact Hs3]. }
  unfold Commit. cbn. rewrite Htx3.
  destruct (commit_error env) as [e|] eqn:Ecom.
  { (* the commit failed *)
    unfold ret, AutoRollback. cbn.
    intros H; inversion H; subst; clear H. cbn. split.
    - exists (t3 ++ [EvInsert (Name migration); EvCommit; EvRollback]).
      rewrite Ht3, <- !app_assoc.
      split; [reflexivity|]. rewrite existsb_app, Hc3. reflexivity.
    - exists d3. split; [exact Hd3 | intros _; exact Hs3]. }
  (* recorded *)
  unfold ret, AutoRollback. cbn.
  intros H; inversion H; subst; clear H. cbn. split.
  - exists (t3 ++ [EvInsert (Name migration); EvCommit]).
    rewrite Ht3, <- !app_assoc.
    split; [reflexivity|]. rewrite existsb_app, Hc3. reflexivity.
  - eexists. split.
    + rewrite Hd3, <- app_assoc. reflexivity.
    + intros [Hr|Hc]; congruence.
Qed.

(** After the notx step and the reading of [down.sql]: from
    [conn.Begin()] on. *)
Lemma from_begin env ctx migration w1 m' r w' :
  after_notx env ctx migration w1 = ((m', r), w') ->
  (exists t, trace w' = trace w1 ++ t /\ existsb on_tx t = false) /\
  exists d, durable w' = durable w1 ++ d /\
    ((r <> None \/ commit_error env <> None) -> filter is_row d = []).
Proof.
  unfold after_notx.
  destruct (down_step env ctx migration) as [m2 [e|]].
  { unfold ret. intros H; inversion H; subst. split.
    - exists []. rewrite app_nil_r. split; reflexivity.
    - exists []. rewrite app_nil_r. split; reflexivity. }
  unfold bind, Begin.
  destruct (begin_error env) as [e|].
  { unfold ret. intros H; inversion H; subst. split.
    - exists []. rewrite app_nil_r. split; reflexivity.
    - exists []. rewrite app_nil_r. split; reflexivity. }
  intros H. apply tx_phase in H; [|reflexivity].
  destruct H as [[t [Ht Hnt]] [d [Hd Hrow]]]. cbn in Ht, Hd. split.
  - exists (EvBegin :: t). rewrite Ht, <- app_assoc.
    split; [reflexivity | exact Hnt].
  - exists d. split; assumption.
Qed.

(** Every statement [runUpScripts] sends goes to the connection it
    was given, none to the transaction it begins. *)
Lemma runUpScripts_never_on_tx env ctx migration w :
  exists t,
    trace (snd (runUpScripts env ctx migration w)) = trace w ++ t /\
    existsb on_tx t = false.
Proof.
  unfold runUpScripts, bind, notx_step.
  destruct (stat env (scriptFilename (Options ctx) migration
                        (str "notx.sql"))).
  - unfold bind.
    pose proof (execFile_conn_only env ctx
                  (scriptFilename (Options ctx) migration (str "notx.sql"))
                  w) as Hc.
    destruct (execFile env ctx HConn
                (scriptFilename (Options ctx) migration (str "notx.sql")) w)
      as [[script e] w1].
    simpl snd in Hc. destruct Hc as [_ [_ [t1 [Ht1 Hc1]]]].
    apply conn_exec_not_on_tx in Hc1.
    destruct e as [e|]; unfold ret.
    + exists t1. split; assumption.
    + destruct (after_notx env ctx
                  (set_NoTransactionScript migration script) w1)
        as [[m' r] w'] eqn:E.
      apply from_begin in E. destruct E as [[t [Ht Hnt]] _].
      exists (t1 ++ t). cbn [snd]. rewrite Ht, Ht1, app_assoc.
      split; [reflexivity|]. rewrite existsb_app, Hc1, Hnt. reflexivity.
  - unfold ret.
    destruct (after_notx env ctx migration w) as [[m' r] w'] eqn:E.
    apply from_begin in E. destruct E as [[t [Ht Hnt]] _].
    exists t. split; assumption.
Qed.

(** C1 fails on the code: the up script is run on the connection,
    not on the transaction begun for the migration.  When its second
    statement is rejected the rollback is issued and no ledger row is
    written, but the first statement stays in the database. *)
Theorem runUpScripts_up_outside_tx :
  let env := Sample.env [(Sample.up_sql, Sample.second_fails)]
               Sample.is_bad None None in
  let out := runUpScripts env Sample.ctx Sample.init fresh in
  snd (fst out) = Some (DriverError (str "syntax error")) /\
  trace (snd out)
  = [EvBegin; EvExec HConn Sample.create_a; EvExec HConn Sample.bad_stmt;
     EvRollback] /\
  ledger (snd out) = [] /\
  durable (snd out) = [Stmt Sample.create_a].
Proof. repeat split; reflexivity. Qed.

(** Once the up script ran and the ledger row was inserted, the
    function returns no error, whatever [tx.Commit()] answers. *)
Lemma tx_body_commit_unchecked env ctx migration w :
  snd (fst (execFile env ctx HConn
              (scriptFilename (Options ctx) migration (str "up.sql")) w))
  = None ->
  insert_error env = None ->
  snd (fst (tx_body env ctx migration w)) = None.
Proof.
  intros Hup Hins. unfold tx_body, bind.
  destruct (execFile env ctx HConn
              (scriptFilename (Options ctx) migration (str "up.sql")) w)
    as [[upScript e] w3].
  simpl in Hup. subst e.
  unfold InsertLedger. rewrite Hins.
  destruct (Commit env _) as [c w5]. reflexivity.
Qed.

(** C4 fails on the code: when the commit fails after the up script
    and the ledger insert went through, the rollback is issued and the
    ledger has no row, yet the function returns no error. *)
Theorem runUpScripts_commit_error_dropped :
  let env := Sample.env [(Sample.up_sql, Sample.create_a)]
               Sample.none_bad None
               (Some (DriverError (str "commit failed"))) in
  let out := runUpScripts env Sample.ctx Sample.init fresh in
  snd (fst out) = None /\
  trace (snd out)
  = [EvBegin; EvExec HConn Sample.create_a;
     EvInsert (Name Sample.init); EvCommit; EvRollback] /\
  ledger (snd out) = [].
Proof. repeat split; reflexivity. Qed.

End RunnerFacts.


(** ** The order on names *)

Module OrderFacts.

Lemma ltb_irrefl a : ltb a a = false.
Proof.
  induction a as [|x a IH]; [reflexivity|]. simpl.
  rewrite Z.ltb_irrefl. exact IH.
Qed.

Lemma ltb_trans a : forall b c,
  ltb a b = true -> ltb b c = true -> ltb a c = true.
Proof.
  induction a as [|x a IH]; intros [|y b] [|z c]; simpl; try discriminate;
    try reflexivity.
  destruct (code x <? code y) eqn:Exy; destruct (code y <? code z) eqn:Eyz;
    destruct (code y <? code x) eqn:Eyx; destruct (code z <? code y) eqn:Ezy;
    destruct (code x <? code z) eqn:Exz; destruct (code z <? code x) eqn:Ezx;
    try discriminate; try reflexivity;
    rewrite ?Z.ltb_lt, ?Z.ltb_ge in *; try lia.
  apply IH.
Qed.

Lemma ltb_asym a b : ltb a b = true -> ltb b a = false.
Proof.
  intros H. destruct (ltb b a) eqn:E; [|reflexivity].
  pose proof (ltb_trans _ _ _ H E) as Haa. rewrite ltb_irrefl in Haa.
  discriminate.
Qed.

End OrderFacts.

(** ** More on the reconciliation check *)

Module ReconcileMore.
Import Reconcile ReconcileFacts OrderFacts.

Lemma present_In m l : In m l -> present (Name m) l = true.
Proof.
  intros H. apply existsb_exists. exists m. split; [exact H|].
  apply eqb_refl.
Qed.

Lemma present_app name a b :
  present name (a ++ b) = present name a || present name b.
Proof. unfold present. apply existsb_app. Qed.

Lemma find_from_found l name : forall i,
  0 <= i -> find_from l name i <> -1 ->
  let k := Z.to_nat (find_from l name i - i) in
  i <= find_from l name i < i + Z.of_nat (List.length l) /\
  (exists m, nth_error l k = Some m /\ Name m = name) /\
  forall j m', (j < k)%nat -> nth_error l j = Some m' -> Name m' <> name.
Proof.
  induction l as [|m l IH]; intros i Hi H; simpl in H; [congruence|].
  cbn [find_from] in *.
  destruct (eqb (Name m) name) eqn:E.
  - replace (i - i) with 0 by lia. simpl. split; [lia|]. split.
    + exists m. split; [reflexivity | apply eqb_eq; exact E].
    + intros j m' Hj. lia.
  - specialize (IH (i + 1) ltac:(lia) H). cbv zeta in IH.
    destruct IH as [Hr [[m0 [Hn Hm0]] Hfirst]].
    cbv zeta.
    replace (Z.to_nat (find_from l name (i + 1) - i))
      with (S (Z.to_nat (find_from l name (i + 1) - (i + 1)))) by lia.
    split; [simpl List.length; lia|]. split.
    + exists m0. split; [exact Hn | exact Hm0].
    + intros [|j] m' Hj Hnth.
      * simpl in Hnth. inversion Hnth; subst m'.
        apply eqb_neq. exact E.
      * simpl in Hnth. apply (Hfirst j m'); [lia | exact Hnth].
Qed.

(** X1: [migrationFindIndexOf] answers -1 for a name the list does not
    have, and otherwise the index, within the list, of the first
    migration of that name. *)
Theorem migrationFindIndexOf_first l name :
  (present name l = false /\ migrationFindIndexOf l name = -1) \/
  (present name l = true /\
   let idx := migrationFindIndexOf l name in
   0 <= idx < Z.of_nat (List.length l) /\
   (exists m, nth_error l (Z.to_nat idx) = Some m /\ Name m = name) /\
   forall j m', (j < Z.to_nat idx)%nat -> nth_error l j = Some m' ->
     Name m' <> name).
Proof.
  destruct (present name l) eqn:E.
  - right. split; [reflexivity|].
    assert (Hne : migrationFindIndexOf l name <> -1).
    { intros H. apply migrationFindIndexOf_absent in H. congruence. }
    unfold migrationFindIndexOf in *.
    destruct (0 <? Z.of_nat (List.length l)); [|congruence].
    pose proof (find_from_found l name 0 ltac:(lia) Hne) as H.
    cbv zeta in *. rewrite Z.sub_0_r in H.
    destruct H as [Hr [Hm Hf]]. split; [lia|]. split; assumption.
  - left. split; [reflexivity|]. apply migrationFindIndexOf_absent. exact E.
Qed.

(** The check, for a ledger that is not empty, in terms of names
    present and absent. *)
Lemma verify_flag local ledger lastMigration :
  (existsb (not_local local) ledger
   || existsb (unapplied ledger lastMigration) local = false) <->
  (forall m, In m ledger -> present (Name m) local = true) /\
  (forall m, In m local -> ltb (Name m) (Name lastMigration) = true ->
     present (Name m) ledger = true).
Proof.
  rewrite orb_false_iff. split.
  - intros [H1 H2]. split.
    + intros m Hin. destruct (present (Name m) local) eqn:E; [reflexivity|].
      apply not_local_iff in E.
      assert (existsb (not_local local) ledger = true)
        by (apply existsb_exists; exists m; auto).
      congruence.
    + intros m Hin Hlt.
      destruct (present (Name m) ledger) eqn:E; [reflexivity|].
      assert (existsb (unapplied ledger lastMigration) local = true).
      { apply existsb_exists. exists m. split; [exact Hin|].
        apply unapplied_iff. auto. }
      congruence.
  - intros [H1 H2]. split.
    + destruct (existsb (not_local local) ledger) eqn:E; [|reflexivity].
      apply existsb_exists in E. destruct E as [m [Hin Hn]].
      apply not_local_iff in Hn. rewrite (H1 m Hin) in Hn. discriminate.
    + destruct (existsb (unapplied ledger lastMigration) local) eqn:E;
        [|reflexivity].
      apply existsb_exists in E. destruct E as [m [Hin Hn]].
      apply unapplied_iff in Hn. destruct Hn as [Hlt Hab].
      rewrite (H2 m Hin Hlt) in Hab. discriminate.
Qed.

(** X2: with a ledger that is not empty the check succeeds exactly
    when every ledger name is a local name and every local name below
    the last ledger name is a ledger name. *)
Theorem verify_ok_iff ctx local front lastMigration w :
  fst (verifyMigrationsHistory ctx local (front ++ [lastMigration]) w) = None
  <->
  (forall m, In m (front ++ [lastMigration]) ->
     present (Name m) local = true) /\
  (forall m, In m local -> ltb (Name m) (Name lastMigration) = true ->
     present (Name m) (front ++ [lastMigration]) = true).
Proof.
  destruct (front ++ [lastMigration]) as [|first rest] eqn:El.
  { destruct front; discriminate El. }
  rewrite verify_nonempty. cbv zeta. cbn [fst].
  assert (Hlast : last (first :: rest) first = lastMigration).
  { rewrite <- El. apply last_last. }
  rewrite Hlast. rewrite <- verify_flag.
  destruct (existsb (not_local local) (first :: rest)
            || existsb (unapplied (first :: rest) lastMigration) local);
    split; congruence.
Qed.

Lemma filter_existsb_false {A} (f : A -> bool) l :
  existsb f l = false -> filter f l = [].
Proof.
  induction l as [|x l IH]; [reflexivity|]. simpl.
  intros H. apply orb_false_iff in H. destruct H as [Hx Hl].
  rewrite Hx. apply IH. exact Hl.
Qed.

Lemma existsb_pointwise {A} (f g : A -> bool) l :
  (forall x, f x = g x) -> existsb f l = existsb g l.
Proof.
  intros H. induction l as [|x l IH]; [reflexivity|]. simpl.
  rewrite H, IH. reflexivity.
Qed.

Lemma ascending_tail a l : ascending (a :: l) = true -> ascending l = true.
Proof.
  simpl. destruct l as [|b l]; [reflexivity|].
  intros H. apply andb_true_iff in H. tauto.
Qed.

(** In an ascending list every later name is above the first. *)
Lemma ascending_above a l :
  ascending (a :: l) = true ->
  forall m, In m l -> ltb (Name a) (Name m) = true.
Proof.
  revert a; induction l as [|b l IH]; intros a H m Hin; [destruct Hin|].
  simpl in H. apply andb_true_iff in H. destruct H as [Hab Hl].
  destruct Hin as [<-|Hin]; [exact Hab|].
  eapply ltb_trans; [exact Hab|]. apply IH; assumption.
Qed.

Lemma ascending_app_r l1 l2 : ascending (l1 ++ l2) = true -> ascending l2 = true.
Proof.
  induction l1 as [|a l1 IH]; [tauto|].
  intros H. apply IH. apply (ascending_tail a). exact H.
Qed.

(** X3: when the ledger is the beginning of the ascending list of
    local migrations (the migrations still to run come after the last
    one applied), the check succeeds and logs nothing. *)
Theorem verify_ledger_prefix ctx ledger pending w :
  ascending (ledger ++ pending) = true ->
  verifyMigrationsHistory ctx (ledger ++ pending) ledger w = (None, w).
Proof.
  intros Hasc.
  destruct ledger as [|first rest] eqn:El; [reflexivity|].
  rewrite <- El in *.
  destruct (exists_last (l := ledger)) as [front [lastMigration Hl]];
    [rewrite El; discriminate|].
  assert (Hlast : last ledger first = lastMigration)
    by (rewrite Hl; apply last_last).
  assert (E : existsb (not_local (ledger ++ pending)) ledger
              || existsb (unapplied ledger lastMigration) (ledger ++ pending)
              = false).
  { apply verify_flag. split.
    - intros m Hin. apply present_In. apply in_or_app. left. exact Hin.
    - intros m Hin Hlt. apply in_app_or in Hin. destruct Hin as [Hin|Hin].
      + apply present_In. exact Hin.
      + exfalso.
        assert (Hgt : ltb (Name lastMigration) (Name m) = true).
        { apply (ascending_above lastMigration pending); [|exact Hin].
          apply (ascending_app_r front). rewrite Hl in Hasc.
          rewrite <- app_assoc in Hasc. exact Hasc. }
        apply ltb_asym in Hgt. congruence. }
  rewrite El at 2. rewrite verify_nonempty. cbv zeta. rewrite <- El.
  rewrite Hlast, E.
  apply orb_false_iff in E. destruct E as [E1 E2].
  rewrite (filter_existsb_false _ _ E1), (filter_existsb_false _ _ E2).
  simpl app. rewrite logged_nil. reflexivity.
Qed.

Lemma verify_ledger_prefix_witness :
  verifyMigrationsHistory Sample.ctx
    ([Sample.init; Sample.hotfix] ++ [Sample.add_col])
    [Sample.init; Sample.hotfix] fresh = (None, fresh).
Proof.
  apply (verify_ledger_prefix Sample.ctx [Sample.init; Sample.hotfix]
           [Sample.add_col] fresh).
  reflexivity.
Defined.

Lemma not_local_present l m : not_local l m = negb (present (Name m) l).
Proof.
  pose proof (not_local_iff l m) as H.
  destruct (not_local l m), (present (Name m) l); simpl; try reflexivity.
  - destruct H as [H _]. discriminate (H eq_refl).
  - destruct H as [_ H]. discriminate (H eq_refl).
Qed.

Lemma unapplied_present db lastMigration m :
  unapplied db lastMigration m
  = ltb (Name m) (Name lastMigration) && negb (present (Name m) db).
Proof.
  unfold unapplied. f_equal. apply (not_local_present db m).
Qed.

(** X4: what the check logs, for a ledger that is not empty: one line
    for each ledger entry that is no local migration, in ledger order,
    then one line for each local migration below the last ledger entry
    that the ledger does not have, in local order; and the check returns
    an error exactly when it logged a line. *)
Theorem verify_log ctx local front lastMigration w :
  let ledger := front ++ [lastMigration] in
  let out := verifyMigrationsHistory ctx local ledger w in
  let missing := filter (fun m => negb (present (Name m) local)) ledger in
  let unrun :=
    filter (fun m => ltb (Name m) (Name lastMigration)
                     && negb (present (Name m) ledger)) local in
  snd out
  = logged w (map (fun m => msg_not_local (Name m)) missing
              ++ map (fun m => msg_younger (Name m) (Name lastMigration))
                   unrun) /\
  (fst out = None <-> missing = [] /\ unrun = []).
Proof.
  intros ledger out missing unrun. subst out missing unrun.
  destruct ledger as [|first rest] eqn:El.
  { subst ledger. destruct front; discriminate El. }
  rewrite verify_nonempty. cbv zeta. cbn [fst snd].
  assert (Hlast : last (first :: rest) first = lastMigration).
  { rewrite <- El. apply last_last. }
  rewrite Hlast.
  rewrite (filter_ext _ _ (not_local_present local)).
  rewrite (filter_ext _ _ (unapplied_present (first :: rest) lastMigration)).
  split; [reflexivity|].
  rewrite (existsb_pointwise _ _ _ (not_local_present local)).
  rewrite (existsb_pointwise _ _ _
             (unapplied_present (first :: rest) lastMigration)).
  set (f := fun m => negb (present (Name m) local)).
  set (g := fun m => ltb (Name m) (Name lastMigration)
                     && negb (present (Name m) (first :: rest))).
  destruct (existsb f (first :: rest)) eqn:Ef.
  - simpl orb. split; [discriminate|]. intros [Hf _].
    apply existsb_exists in Ef. destruct Ef as [x [Hx Hfx]].
    assert (Hin : In x (filter f (first :: rest)))
      by (apply filter_In; auto).
    rewrite Hf in Hin. destruct Hin.
  - simpl orb. rewrite (filter_existsb_false _ _ Ef).
    destruct (existsb g local) eqn:Eg.
    + split; [discriminate|]. intros [_ Hg].
      apply existsb_exists in Eg. destruct Eg as [x [Hx Hgx]].
      assert (Hin : In x (filter g local)) by (apply filter_In; auto).
      rewrite Hg in Hin. destruct Hin.
    + rewrite (filter_existsb_false _ _ Eg). tauto.
Qed.

Lemma find_from_names l l' name :
  map Name l = map Name l' ->
  forall i, find_from l name i = find_from l' name i.
Proof.
  revert l'; induction l as [|m l IH]; intros [|m' l'] H i;
    try discriminate H; [reflexivity|].
  simpl in H. inversion H as [[Hn Hl]]. simpl. rewrite Hn.
  destruct (eqb (Name m') name); [reflexivity|]. apply IH. exact Hl.
Qed.

Lemma migrationFindIndexOf_names l l' name :
  map Name l = map Name l' ->
  migrationFindIndexOf l name = migrationFindIndexOf l' name.
Proof.
  intros H. unfold migrationFindIndexOf.
  rewrite (find_from_names l l' name H).
  assert (Hlen : List.length l = List.length l').
  { rewrite <- (length_map Name l), H. apply length_map. }
  rewrite Hlen. reflexivity.
Qed.

Lemma check_db_names local local' db : forall db' inError w,
  map Name local = map Name local' ->
  map Name db = map Name db' ->
  check_db local db inError w = check_db local' db' inError w.
Proof.
  induction db as [|m db IH]; intros [|m' db'] inError w Hl Hd;
    try discriminate Hd; [reflexivity|].
  simpl in Hd. inversion Hd as [[Hn Hd']]. simpl.
  rewrite (migrationFindIndexOf_names local local' _ Hl), Hn.
  destruct (migrationFindIndexOf local' (Name m') =? -1).
  - unfold bind. destruct (Info _ w) as [[] w1]. apply IH; assumption.
  - apply IH; assumption.
Qed.

Lemma check_local_names db db' lastMigration lastMigration' local :
  forall local' inError w,
  map Name db = map Name db' ->
  Name lastMigration = Name lastMigration' ->
  map Name local = map Name local' ->
  check_local db lastMigration local inError w
  = check_local db' lastMigration' local' inError w.
Proof.
  induction local as [|m local IH]; intros [|m' local'] inError w Hd Hlast Hl;
    try discriminate Hl; [reflexivity|].
  simpl in Hl. inversion Hl as [[Hn Hl']]. simpl.
  rewrite (migrationFindIndexOf_names db db' _ Hd), Hn, Hlast.
  destruct (ltb (Name m') (Name lastMigration')).
  - destruct (migrationFindIndexOf db' (Name m') =? -1).
    + unfold bind. destruct (Info _ w) as [[] w1]. apply IH; assumption.
    + apply IH; assumption.
  - apply IH; assumption.
Qed.

Lemma last_names l : forall l' d d',
  map Name l = map Name l' -> Name d = Name d' ->
  Name (last l d) = Name (last l' d').
Proof.
  induction l as [|m l IH]; intros [|m' l'] d d' H Hd; try discriminate H;
    [exact Hd|].
  simpl in H. inversion H as [[Hn Hl]].
  destruct l as [|m2 l]; destruct l' as [|m2' l']; try discriminate Hl.
  - exact Hn.
  - change (last (m :: m2 :: l) d) with (last (m2 :: l) d).
    change (last (m' :: m2' :: l') d') with (last (m2' :: l') d').
    apply IH; assumption.
Qed.

(** X5: the check looks at names only: two runs on lists that carry
    the same names in the same order, whatever scripts the migrations
    hold, return the same error and log the same lines.  In particular
    the partial migrations of [getPartialLocalMigrations] do. *)
Theorem verify_names_only ctx local local' ledger ledger' w :
  map Name local = map Name local' ->
  map Name ledger = map Name ledger' ->
  verifyMigrationsHistory ctx local ledger w
  = verifyMigrationsHistory ctx local' ledger' w.
Proof.
  intros Hl Hd. unfold verifyMigrationsHistory.
  destruct ledger as [|first rest]; destruct ledger' as [|first' rest'];
    try discriminate Hd; [reflexivity|].
  unfold bind.
  rewrite (check_db_names local local' (first :: rest) (first' :: rest')
             false w Hl Hd).
  destruct (check_db local' (first' :: rest') false w) as [inError w1].
  assert (Hfirst : Name first = Name first')
    by (simpl in Hd; inversion Hd; reflexivity).
  rewrite (check_local_names (first :: rest) (first' :: rest')
             (last (first :: rest) first) (last (first' :: rest') first')
             local local' inError w1 Hd
             (last_names _ _ _ _ Hd Hfirst) Hl).
  reflexivity.
Qed.

Lemma verify_names_only_witness :
  verifyMigrationsHistory Sample.ctx
    [Sample.init; Sample.hotfix]
    [set_UpScript Sample.init Sample.create_a] fresh
  = verifyMigrationsHistory Sample.ctx
      [set_DownScript Sample.init Sample.create_b; Sample.hotfix]
      [Sample.init] fresh.
Proof.
  apply (verify_names_only Sample.ctx
           [Sample.init; Sample.hotfix]
           [set_DownScript Sample.init Sample.create_b; Sample.hotfix]
           [set_UpScript Sample.init Sample.create_a] [Sample.init] fresh).
  - reflexivity.
  - reflexivity.
Defined.

End ReconcileMore.

(** ** More on the error locator *)

Module LocatorMore.
Import Locator LocatorFacts.

(** The scan never lets the line fall, keeps the column at or above
    zero, and counts at most one line or column per character read. *)
Lemma scan_bounds k : forall rest idx target l c,
  (List.length rest <= k)%nat -> 0 <= c ->
  let r := locate_scan rest idx target l c in
  l <= fst r /\ 0 <= snd r /\
  fst r - 1 + snd r <= l - 1 + c + len rest.
Proof.
  induction k as [|k IH]; intros rest idx target l c Hk Hc.
  - destruct rest; [|simpl in Hk; lia]. cbv zeta. simpl.
    destruct (target <=? idx); simpl; change (len []) with 0; lia.
  - destruct rest as [|x rest1].
    { cbv zeta. simpl.
      destruct (target <=? idx); simpl; change (len []) with 0; lia. }
    cbv zeta. rewrite scan_cons. rewrite len_cons.
    pose proof (len_nonneg rest1) as Hr1.
    destruct (target <=? idx); [simpl; lia|].
    assert (Hone : forall l1 c1, 0 <= c1 -> l <= l1 ->
              l1 - 1 + c1 <= l - 1 + c + 1 ->
              let r := locate_scan rest1 (idx + 1) target l1 c1 in
              l <= fst r /\ 0 <= snd r /\
              fst r - 1 + snd r <= l - 1 + c + (len rest1 + 1)).
    { intros l1 c1 Hc1 Hl1 Hm.
      destruct (IH rest1 (idx + 1) target l1 c1) as [A [B C]];
        [simpl in Hk; lia | exact Hc1 |].
      cbv zeta. lia. }
    destruct (Ascii.eqb x CR).
    + destruct rest1 as [|x2 rest2]; [simpl; lia|].
      destruct (Ascii.eqb x2 LF).
      * destruct rest2 as [|x3 rest3]; [simpl; lia|].
        destruct (IH (x3 :: rest3) (idx + 2) target (l + 1) 0) as [A [B C]];
          [simpl in Hk |- *; lia | lia |].
        pose proof (len_nonneg rest3) as Hr3.
        cbv zeta in C. rewrite !len_cons in *. lia.
      * apply Hone; lia.
    + destruct (Ascii.eqb x LF).
      * destruct rest1 as [|x2 rest2]; [simpl; lia|].
        apply Hone; lia.
      * apply Hone; lia.
Qed.

(** X6: whatever the script and the offset, the line reported is at
    least 1, the column at least 0, and lines and columns together
    account for no more characters than the script has. *)
Theorem extractLineColumn_bounds script pos n :
  Atoi pos = inl n ->
  exists l c,
    extractLineColumn script pos = Some (l, c, None) /\
    1 <= l /\ 0 <= c /\ l - 1 + c <= len script.
Proof.
  intros Hpos.
  destruct (extractLineColumn_parsed script pos n Hpos) as [v [_ [Hv Hs]]].
  exists (line v), (column v). split; [exact Hv|].
  pose proof (scan_bounds (List.length script) script 0 (wrap (n + 1)) 1 0
                (Nat.le_refl _) (Z.le_refl 0)) as H.
  cbv zeta in H. rewrite <- Hs in H. simpl fst in H. simpl snd in H. lia.
Qed.

Lemma extractLineColumn_bounds_witness :
  exists l c,
    extractLineColumn (str "select" ++ [LF] ++ str "1") (str "7")
    = Some (l, c, None) /\
    1 <= l /\ 0 <= c /\ l - 1 + c <= len (str "select" ++ [LF] ++ str "1").
Proof.
  apply (extractLineColumn_bounds (str "select" ++ [LF] ++ str "1")
           (str "7") 7).
  reflexivity.
Defined.

(** X7: a negative offset, or an empty script, gives line 1, column 0. *)
Theorem extractLineColumn_start script pos n :
  Atoi pos = inl n ->
  n < 0 \/ script = [] ->
  extractLineColumn script pos = Some (1, 0, None).
Proof.
  intros Hpos Hcase.
  destruct (extractLineColumn_parsed script pos n Hpos) as [v [_ [Hv Hs]]].
  assert (E : locate_scan script 0 (wrap (n + 1)) 1 0 = (1, 0)).
  { destruct Hcase as [Hneg|Hempty].
    - apply scan_reached.
      pose proof (Atoi_in_range pos n Hpos) as Hr.
      rewrite wrap_succ; [lia | exact Hr |].
      unfold max_int. lia.
    - subst script. simpl. destruct (wrap (n + 1) <=? 0); reflexivity. }
  rewrite E in Hs. inversion Hs as [[Hl Hc]]. rewrite Hv, Hl, Hc.
  reflexivity.
Qed.

Lemma extractLineColumn_start_witness :
  extractLineColumn (str "select 1") (str "-3") = Some (1, 0, None).
Proof.
  apply (extractLineColumn_start (str "select 1") (str "-3") (-3)).
  - reflexivity.
  - left. lia.
Defined.

(** On text without line breaks the scan counts columns up to the
    target or the end of the text, whichever comes first. *)
Lemma scan_one_line rest : forall idx target l c,
  forallb (fun ch => negb (Ascii.eqb ch CR) && negb (Ascii.eqb ch LF)) rest
  = true ->
  locate_scan rest idx target l c
  = (l, c + Z.max 0 (Z.min (target - idx) (len rest))).
Proof.
  induction rest as [|x rest IH]; intros idx target l c H.
  - simpl. change (len []) with 0.
    destruct (target <=? idx); f_equal; lia.
  - rewrite scan_cons. simpl in H.
    apply andb_true_iff in H. destruct H as [Hx Hrest].
    apply andb_true_iff in Hx. destruct Hx as [Hcr Hlf].
    apply negb_true_iff in Hcr. apply negb_true_iff in Hlf.
    rewrite Hcr, Hlf. rewrite len_cons. pose proof (len_nonneg rest) as Hr.
    destruct (target <=? idx) eqn:E.
    + apply Z.leb_le in E. f_equal. lia.
    + apply Z.leb_gt in E. rewrite IH by exact Hrest. f_equal. lia.
Qed.

(** X8: in a script of one line (no carriage return, no line feed)
    the line is 1 and the column is the offset plus one, or the length
    of the script when the offset lies beyond it. *)
Theorem extractLineColumn_one_line script pos n :
  Atoi pos = inl n ->
  0 <= n < max_int ->
  forallb (fun ch => negb (Ascii.eqb ch CR) && negb (Ascii.eqb ch LF)) script
  = true ->
  extractLineColumn script pos = Some (1, Z.min (n + 1) (len script), None).
Proof.
  intros Hpos Hn Hline.
  destruct (extractLineColumn_parsed script pos n Hpos) as [v [_ [Hv Hs]]].
  rewrite (wrap_succ n (Atoi_in_range pos n Hpos) (proj2 Hn)) in Hs.
  rewrite scan_one_line in Hs by exact Hline.
  pose proof (len_nonneg script) as Hlen.
  replace (0 + Z.max 0 (Z.min (n + 1 - 0) (len script)))
    with (Z.min (n + 1) (len script)) in Hs by lia.
  rewrite Hv. destruct v as [vi vl vc]. simpl in Hs |- *.
  inversion Hs. reflexivity.
Qed.

Lemma extractLineColumn_one_line_witness :
  extractLineColumn (str "select 1 frm t") (str "9")
  = Some (1, Z.min (9 + 1) (len (str "select 1 frm t")), None).
Proof.
  apply (extractLineColumn_one_line (str "select 1 frm t") (str "9") 9).
  - reflexivity.
  - unfold max_int. lia.
  - reflexivity.
Defined.

(** Once the target lies at or beyond the end of the text, the scan
    reads all of it, whatever the target. *)
Lemma scan_saturates k : forall rest idx target target' l c,
  (List.length rest <= k)%nat ->
  len rest <= target - idx -> len rest <= target' - idx ->
  locate_scan rest idx target l c = locate_scan rest idx target' l c.
Proof.
  induction k as [|k IH]; intros rest idx target target' l c Hk Ht Ht'.
  - destruct rest; [|simpl in Hk; lia]. simpl.
    destruct (target <=? idx), (target' <=? idx); reflexivity.
  - destruct rest as [|x rest1].
    { simpl. destruct (target <=? idx), (target' <=? idx); reflexivity. }
    rewrite !scan_cons. rewrite len_cons in Ht, Ht'.
    pose proof (len_nonneg rest1) as Hr1.
    replace (target <=? idx) with false by (symmetry; apply Z.leb_gt; lia).
    replace (target' <=? idx) with false by (symmetry; apply Z.leb_gt; lia).
    assert (Hone : forall l1 c1,
              locate_scan rest1 (idx + 1) target l1 c1
              = locate_scan rest1 (idx + 1) target' l1 c1).
    { intros l1 c1. apply IH; [simpl in Hk; lia | lia | lia]. }
    destruct (Ascii.eqb x CR).
    + destruct rest1 as [|x2 rest2]; [reflexivity|].
      destruct (Ascii.eqb x2 LF); [|apply Hone].
      destruct rest2 as [|x3 rest3]; [reflexivity|].
      rewrite len_cons in Ht, Ht'.
      apply IH; [simpl in Hk |- *; lia | lia | lia].
    + destruct (Ascii.eqb x LF); [|apply Hone].
      destruct rest1 as [|x2 rest2]; [reflexivity | apply Hone].
Qed.

(** X9: every offset at or beyond the last character of the script
    gives the same line and column. *)
Theorem extractLineColumn_beyond_end script pos pos' n n' :
  Atoi pos = inl n -> Atoi pos' = inl n' ->
  n < max_int -> n' < max_int ->
  len script <= n + 1 -> len script <= n' + 1 ->
  extractLineColumn script pos = extractLineColumn script pos'.
Proof.
  intros Hpos Hpos' Hn Hn' Hl Hl'.
  destruct (extractLineColumn_parsed script pos n Hpos) as [v [_ [Hv Hs]]].
  destruct (extractLineColumn_parsed script pos' n' Hpos')
    as [v' [_ [Hv' Hs']]].
  rewrite (wrap_succ n (Atoi_in_range pos n Hpos) Hn) in Hs.
  rewrite (wrap_succ n' (Atoi_in_range pos' n' Hpos') Hn') in Hs'.
  rewrite (scan_saturates (List.length script) script 0 (n + 1) (n' + 1) 1 0)
    in Hs by lia.
  rewrite <- Hs' in Hs. inversion Hs as [[Hl1 Hc1]].
  rewrite Hv, Hv', Hl1, Hc1. reflexivity.
Qed.

Lemma extractLineColumn_beyond_end_witness :
  extractLineColumn (str "a" ++ [LF] ++ str "bc") (str "3")
  = extractLineColumn (str "a" ++ [LF] ++ str "bc") (str "5000").
Proof.
  apply (extractLineColumn_beyond_end (str "a" ++ [LF] ++ str "bc")
           (str "3") (str "5000") 3 5000).
  - reflexivity.
  - reflexivity.
  - unfold max_int. lia.
  - unfold max_int. lia.
  - vm_compute. discriminate.
  - vm_compute. discriminate.
Defined.

End LocatorMore.

(** ** More on the batch splitter *)

Module SplitterMore.
Import SplitterFacts.

Lemma has_prefix_split s p :
  has_prefix s p = true -> exists t, s = p ++ t.
Proof.
  revert s; induction p as [|y p IH]; intros s H.
  - exists s. reflexivity.
  - destruct s as [|x s]; [discriminate|]. simpl in H.
    apply andb_true_iff in H. destruct H as [Hx Hp].
    apply Ascii.eqb_eq in Hx. subst y.
    destruct (IH s Hp) as [t Ht]. exists t. rewrite Ht. reflexivity.
Qed.

Lemma has_prefix_app_l s p t :
  has_prefix s p = true -> has_prefix (s ++ t) p = true.
Proof.
  revert s; induction p as [|y p IH]; intros s H;
    [destruct (s ++ t); reflexivity|].
  destruct s as [|x s]; [discriminate|]. simpl in H |- *.
  apply andb_true_iff in H. destruct H as [Hx Hp].
  rewrite Hx. simpl. apply IH. exact Hp.
Qed.

(** What the splitter does at a match and elsewhere. *)
Lemma split_go_match acc r' :
  split_go true acc (separator ++ r') = rev acc :: split_go true [] r'.
Proof. unfold separator, str. simpl. destruct r'; reflexivity. Qed.

Lemma split_go_step bol acc c r :
  bol && has_prefix (c :: r) separator = false ->
  split_go bol acc (c :: r) = split_go (Ascii.eqb c LF) (c :: acc) r.
Proof. intros H. cbn [split_go]. rewrite H. reflexivity. Qed.

Lemma split_go_cases bol acc s :
  (s = [] /\ split_go bol acc s = [rev acc]) \/
  (exists r', bol = true /\ s = separator ++ r' /\
              split_go bol acc s = rev acc :: split_go true [] r') \/
  (exists c r, s = c :: r /\ bol && has_prefix s separator = false /\
               split_go bol acc s = split_go (Ascii.eqb c LF) (c :: acc) r).
Proof.
  destruct s as [|c r]; [left; split; reflexivity|]. right.
  destruct (bol && has_prefix (c :: r) separator) eqn:E.
  - left. apply andb_true_iff in E. destruct E as [Hb Hp].
    destruct (has_prefix_split _ _ Hp) as [r' Hr'].
    exists r'. subst bol. rewrite Hr'. split; [reflexivity|].
    split; [reflexivity | apply split_go_match].
  - right. exists c, r. split; [reflexivity|]. split; [reflexivity|].
    apply split_go_step. exact E.
Qed.

(** X10: the splitter never returns an empty list (so the test
    [len(statements) == 0] of [execScript] is never true), and putting
    the separator back between the segments gives the script again. *)
Theorem Split_join script :
  Split script <> [] /\ join separator (Split script) = script.
Proof.
  assert (H : forall k s bol acc, (List.length s <= k)%nat ->
            split_go bol acc s <> [] /\
            join separator (split_go bol acc s) = rev acc ++ s).
  { induction k as [|k IH]; intros s bol acc Hk;
      destruct (split_go_cases bol acc s)
        as [[Hs E]|[[r' [Hb [Hs E]]]|[c [r [Hs [_ E]]]]]];
      rewrite E; subst s.
    - split; [discriminate|]. simpl. rewrite app_nil_r. reflexivity.
    - simpl in Hk. lia.
    - simpl in Hk. lia.
    - split; [discriminate|]. simpl. rewrite app_nil_r. reflexivity.
    - split; [discriminate|].
      destruct (IH r' true []) as [Hne Hj].
      { rewrite length_app in Hk. simpl in Hk. lia. }
      cbn [join]. destruct (split_go true [] r') as [|a rest] eqn:Er;
        [congruence|].
      rewrite Hj. reflexivity.
    - destruct (IH r (Ascii.eqb c LF) (c :: acc)) as [Hne Hj].
      { simpl in Hk. lia. }
      split; [exact Hne|]. rewrite Hj. simpl. rewrite <- app_assoc.
      reflexivity. }
  apply (H (List.length script) script true []). lia.
Qed.

Lemma line_startb_app a b i :
  (i <= List.length a)%nat -> line_startb (a ++ b) i = line_startb a i.
Proof.
  intros H. destruct i as [|j]; [reflexivity|]. simpl.
  rewrite nth_error_app1 by lia. reflexivity.
Qed.

Lemma skipn_app_le (a b : gostring) i :
  (i <= List.length a)%nat -> skipn i (a ++ b) = skipn i a ++ b.
Proof.
  intros H. rewrite skipn_app.
  replace (i - List.length a)%nat with O by lia. reflexivity.
Qed.

(** No match begins within [a], even looking on into [b]: then [a] on
    its own has no match. *)
Lemma no_match_restrict a b :
  (forall i, (i < List.length a)%nat -> matches_at (a ++ b) i = false) ->
  has_match a = false.
Proof.
  intros H. unfold has_match.
  destruct (existsb (matches_at a) (seq 0 (S (List.length a)))) eqn:E;
    [|reflexivity].
  exfalso. apply existsb_exists in E. destruct E as [i [Hin Hm]].
  apply in_seq in Hin.
  unfold matches_at in Hm. apply andb_true_iff in Hm. destruct Hm as [Hl Hp].
  destruct (Nat.eq_dec i (List.length a)) as [->|Hne].
  - rewrite skipn_all in Hp. discriminate Hp.
  - assert (Hi : (i < List.length a)%nat) by lia.
    specialize (H i Hi). unfold matches_at in H.
    rewrite line_startb_app, Hl in H by lia.
    rewrite skipn_app_le in H by lia.
    rewrite (has_prefix_app_l _ _ b Hp) in H. discriminate H.
Qed.

Lemma segments_clean k : forall s bol acc,
  (List.length s <= k)%nat ->
  bol = line_startb (rev acc) (List.length acc) ->
  (forall i, (i < List.length acc)%nat ->
     matches_at (rev acc ++ s) i = false) ->
  Forall (fun segment => has_match segment = false) (split_go bol acc s).
Proof.
  induction k as [|k IH]; intros s bol acc Hk Hbol Hacc;
    destruct (split_go_cases bol acc s)
      as [[Hs E]|[[r' [Hb [Hs E]]]|[c [r [Hs [Hno E]]]]]];
    rewrite E; subst s;
    try (simpl in Hk; lia);
    try (rewrite length_app in Hk; simpl in Hk).
  - constructor; [|constructor].
    apply (no_match_restrict (rev acc) []). rewrite length_rev. exact Hacc.
  - constructor; [|constructor].
    apply (no_match_restrict (rev acc) []). rewrite length_rev. exact Hacc.
  - constructor.
    + apply (no_match_restrict (rev acc) (separator ++ r')).
      rewrite length_rev. exact Hacc.
    + apply IH; [lia | reflexivity | intros i Hi; simpl in Hi; lia].
  - apply IH; [simpl in Hk; lia | |].
    + simpl. rewrite nth_error_app2 by (rewrite length_rev; lia).
      rewrite length_rev, Nat.sub_diag. reflexivity.
    + intros i Hi. simpl in Hi. simpl rev. rewrite <- app_assoc. simpl app.
      destruct (Nat.eq_dec i (List.length acc)) as [->|Hne].
      * unfold matches_at.
        rewrite line_startb_app by (rewrite length_rev; lia).
        rewrite <- Hbol.
        replace (skipn (List.length acc) (rev acc ++ c :: r)) with (c :: r).
        -- exact Hno.
        -- rewrite skipn_app_le by (rewrite length_rev; lia).
           rewrite <- (length_rev acc), skipn_all. reflexivity.
      * apply Hacc. lia.
Qed.

(** X11: no segment the splitter returns has a separator line in
    it. *)
Theorem Split_segments_clean script :
  Forall (fun segment => has_match segment = false) (Split script).
Proof.
  apply (segments_clean (List.length script) script true []).
  - lia.
  - reflexivity.
  - intros i Hi. simpl in Hi. lia.
Qed.

End SplitterMore.

(** ** The locator against the plain count of line feeds *)

Module LocatorPlain.
Import Locator LocatorFacts.

Lemma scan_plain rest : forall idx target l c,
  forallb (fun ch => negb (Ascii.eqb ch CR)) rest = true ->
  0 <= target - idx < len rest ->
  locate_scan rest idx target l c
  = plain_scan (firstn (Z.to_nat (target - idx)) rest) l c.
Proof.
  induction rest as [|x rest IH]; intros idx target l c Hcr Ht.
  - change (len []) with 0 in Ht. lia.
  - rewrite scan_cons. simpl in Hcr.
    apply andb_true_iff in Hcr. destruct Hcr as [Hx Hrest].
    apply negb_true_iff in Hx. rewrite Hx.
    rewrite len_cons in Ht.
    destruct (target <=? idx) eqn:E.
    + apply Z.leb_le in E. replace (target - idx) with 0 by lia.
      reflexivity.
    + apply Z.leb_gt in E.
      replace (Z.to_nat (target - idx))
        with (S (Z.to_nat (target - (idx + 1)))) by lia.
      cbn [firstn plain_scan].
      assert (Hne : rest <> []).
      { intros ->. change (len []) with 0 in Ht. lia. }
      destruct (Ascii.eqb x LF).
      * destruct rest as [|x2 rest2]; [congruence|].
        apply IH; [exact Hrest | lia].
      * apply IH; [exact Hrest | lia].
Qed.

(** X12: in a script without carriage returns, for an offset that
    stops the scan before the last character, the line and column are
    those of the plain count over the characters scanned (the offset
    plus one of them): one line per line feed, one column per character
    after the last line feed.  (The length of a script is an [int].) *)
Theorem extractLineColumn_plain script pos n :
  Atoi pos = inl n ->
  forallb (fun ch => negb (Ascii.eqb ch CR)) script = true ->
  len script <= max_int ->
  0 <= n + 1 < len script ->
  extractLineColumn script pos
  = Some (fst (plain_scan (firstn (Z.to_nat (n + 1)) script) 1 0),
          snd (plain_scan (firstn (Z.to_nat (n + 1)) script) 1 0), None).
Proof.
  intros Hpos Hcr Hbig Hn.
  destruct (extractLineColumn_parsed script pos n Hpos) as [v [_ [Hv Hs]]].
  assert (Hlt : n < max_int) by lia.
  rewrite (wrap_succ n (Atoi_in_range pos n Hpos) Hlt) in Hs.
  rewrite scan_plain in Hs by (try exact Hcr; lia).
  rewrite Z.sub_0_r in Hs. rewrite <- Hs. exact Hv.
Qed.

Lemma extractLineColumn_plain_witness :
  extractLineColumn (str "select" ++ [LF] ++ str "frm t;") (str "8")
  = Some (2, 2, None).
Proof.
  apply (extractLineColumn_plain (str "select" ++ [LF] ++ str "frm t;")
           (str "8") 8).
  - reflexivity.
  - reflexivity.
  - vm_compute. discriminate.
  - vm_compute. split; [discriminate | reflexivity].
Defined.

End LocatorPlain.

(** ** More on the script executor *)

Module ExecutorMore.

Lemma Exec_trace env conn sql w :
  trace (snd (Exec env conn sql w)) = trace w ++ [EvExec conn sql].
Proof. destruct conn; reflexivity. Qed.

Lemma Exec_log env conn sql w : log (snd (Exec env conn sql w)) = log w.
Proof. destruct conn; reflexivity. Qed.

(** The answer [Exec] hands back is the one the database gave. *)
Lemma Exec_answer env conn sql w :
  exists d p, fst (Exec env conn sql w) = err (answer env d p sql).
Proof. destruct conn; eexists; eexists; reflexivity. Qed.

Lemma sendable_empty : sendable [] = false.
Proof. reflexivity. Qed.

(** The three ways of a segment through the loop of [execScript]. *)
Lemma exec_statements_cons env conn statement rest w :
  exec_statements env conn (statement :: rest) w =
  if eqb statement [] then exec_statements env conn rest w
  else if Str.IsEmpty statement then (None, w)
  else
    let '(e, w1) := Exec env conn statement w in
    match e with
    | Some e =>
        if contains (Error_text e) (str "no RowsAffected")
        then exec_statements env conn rest w1
        else (Some e, logged w1 [sprintPQError statement (Some e)])
    | None => exec_statements env conn rest w1
    end.
Proof.
  cbn [exec_statements]. unfold bind, ret.
  destruct (eqb statement []); [reflexivity|].
  destruct (Str.IsEmpty statement); [reflexivity|].
  destruct (Exec env conn statement w) as [[e|] w1]; [|reflexivity].
  destruct (contains (Error_text e) (str "no RowsAffected")); reflexivity.
Qed.

Lemma sendable_cases statement :
  (statement = [] /\ sendable statement = false) \/
  (statement <> [] /\ Str.IsEmpty statement = true /\
   sendable statement = false) \/
  (statement <> [] /\ Str.IsEmpty statement = false /\
   sendable statement = true).
Proof.
  unfold sendable.
  destruct statement as [|c r]; [left; split; reflexivity|]. right.
  destruct (Str.IsEmpty (c :: r)); [left | right];
    (split; [discriminate | split; reflexivity]).
Qed.

(** What the loop sends is a beginning of the list of the segments
    that are not white space, each sent once, in order, on [conn]. *)
Lemma exec_statements_sent env conn statements : forall w,
  exists k,
    trace (snd (exec_statements env conn statements w))
    = trace w ++ map (EvExec conn) (firstn k (filter sendable statements)).
Proof.
  induction statements as [|statement rest IH]; intros w.
  - exists O. simpl. rewrite app_nil_r. reflexivity.
  - rewrite exec_statements_cons.
    destruct (sendable_cases statement)
      as [[-> Hs]|[[Hne [Hb Hs]]|[Hne [Hb Hs]]]].
    + simpl eqb. cbn [filter]. rewrite Hs. apply IH.
    + apply eqb_neq in Hne. rewrite Hne, Hb.
      exists O. simpl. rewrite app_nil_r. reflexivity.
    + apply eqb_neq in Hne. rewrite Hne, Hb. cbn [filter]. rewrite Hs.
      pose proof (Exec_trace env conn statement w) as Ht.
      destruct (Exec env conn statement w) as [e w1]. simpl snd in Ht.
      assert (Hgo : exists k,
                trace (snd (exec_statements env conn rest w1))
                = trace w ++ map (EvExec conn)
                               (firstn k (statement :: filter sendable rest))).
      { destruct (IH w1) as [k Hk]. exists (S k).
        rewrite Hk, Ht, <- app_assoc. reflexivity. }
      destruct e as [e|]; [|exact Hgo].
      destruct (contains (Error_text e) (str "no RowsAffected"));
        [exact Hgo|].
      exists 1%nat. cbn [snd logged trace]. rewrite Ht. reflexivity.
Qed.

Lemma execScript_loop env conn script w :
  execScript env conn script w = exec_statements env conn (Split script) w.
Proof.
  unfold execScript.
  destruct (Split script) as [|a rest] eqn:E; [reflexivity|].
  reflexivity.
Qed.

(** X13: [execScript] makes no call but statements on the handle it
    was given, and the statements are a beginning of the list of the
    script's segments that are not white space, in script order: no
    empty or blank statement is ever sent, none is sent twice, none out
    of order. *)
Theorem execScript_sends env conn script w :
  exists k,
    trace (snd (execScript env conn script w))
    = trace w
      ++ map (EvExec conn) (firstn k (filter sendable (Split script))).
Proof. rewrite execScript_loop. apply exec_statements_sent. Qed.

Lemma exec_statements_error env conn statements : forall w e,
  fst (exec_statements env conn statements w) = Some e ->
  exists w0 sql,
    In sql statements /\
    fst (Exec env conn sql w0) = Some e /\
    snd (exec_statements env conn statements w)
    = logged (snd (Exec env conn sql w0)) [sprintPQError sql (Some e)] /\
    contains (Error_text e) (str "no RowsAffected") = false.
Proof.
  induction statements as [|statement rest IH]; intros w e H.
  - discriminate H.
  - rewrite exec_statements_cons in H |- *.
    assert (Hrest : forall w1,
              fst (exec_statements env conn rest w1) = Some e ->
              exists w0 sql,
                In sql (statement :: rest) /\
                fst (Exec env conn sql w0) = Some e /\
                snd (exec_statements env conn rest w1)
                = logged (snd (Exec env conn sql w0))
                    [sprintPQError sql (Some e)] /\
                contains (Error_text e) (str "no RowsAffected") = false).
    { intros w1 H1. destruct (IH w1 e H1) as [w0 [sql [Hin Hx]]].
      exists w0, sql. split; [right; exact Hin | exact Hx]. }
    destruct (eqb statement []); [apply Hrest; exact H|].
    destruct (Str.IsEmpty statement); [discriminate H|].
    destruct (Exec env conn statement w) as [e1 w1] eqn:Ex.
    destruct e1 as [e1|]; [|apply Hrest; exact H].
    destruct (contains (Error_text e1) (str "no RowsAffected")) eqn:Ec;
      [apply Hrest; exact H|].
    simpl in H. inversion H; subst e1.
    exists w, statement. split; [left; reflexivity|].
    rewrite Ex. split; [reflexivity|]. split; [reflexivity | exact Ec].
Qed.



(** X15: with a database whose every error is a "no RowsAffected"
    error, [execScript] returns no error, whatever the script. *)
Theorem execScript_absorbs env conn script w :
  (forall d p sql e,
     err (answer env d p sql) = Some e ->
     contains (Error_text e) (str "no RowsAffected") = true) ->
  fst (execScript env conn script w) = None.
Proof.
  intros Hans.
  destruct (fst (execScript env conn script w)) as [e|] eqn:E;
    [|reflexivity].
  exfalso.
  rewrite execScript_loop in E.
  destruct (exec_statements_error env conn (Split script) w e E)
    as [w0 [sql [_ [Hx [_ Hc]]]]].
  destruct (Exec_answer env conn sql w0) as [d [p Ha]].
  rewrite Hx in Ha. symmetry in Ha.
  rewrite (Hans d p sql e Ha) in Hc. discriminate Hc.
Qed.

Lemma execScript_absorbs_witness :
  fst (execScript
         {| stat := fun _ => false;
            read := fun name => inr (PathError name);
            answer := fun _ _ _ =>
                        {| applied := true;
                           err := Some (DriverError
                                          (str "pq: no RowsAffected available")) |};
            begin_error := None; insert_error := None;
            commit_error := None |}
         HConn Sample.second_fails fresh) = None.
Proof.
  apply execScript_absorbs.
  intros d p sql e H. simpl in H. inversion H. reflexivity.
Defined.

Lemma exec_statements_all env conn statements : forall w,
  (forall segment, In segment statements -> blank segment = false) ->
  fst (exec_statements env conn statements w) = None ->
  trace (snd (exec_statements env conn statements w))
  = trace w ++ map (EvExec conn) (filter sendable statements).
Proof.
  induction statements as [|statement rest IH]; intros w Hnb Hok.
  - simpl. rewrite app_nil_r. reflexivity.
  - rewrite exec_statements_cons in Hok |- *.
    assert (Hrest : forall segment, In segment rest -> blank segment = false)
      by (intros; apply Hnb; right; assumption).
    destruct (sendable_cases statement)
      as [[-> Hs]|[[Hne [Hb Hs]]|[Hne [Hb Hs]]]].
    + simpl eqb in *. cbn [filter]. rewrite Hs. apply IH; assumption.
    + exfalso. specialize (Hnb statement (or_introl eq_refl)).
      unfold blank in Hnb. rewrite Hb in Hnb. apply eqb_neq in Hne.
      rewrite Hne in Hnb. discriminate Hnb.
    + apply eqb_neq in Hne. rewrite Hne, Hb in *. cbn [filter]. rewrite Hs.
      pose proof (Exec_trace env conn statement w) as Ht.
      destruct (Exec env conn statement w) as [e w1]. simpl snd in Ht.
      assert (Hgo : fst (exec_statements env conn rest w1) = None ->
                trace (snd (exec_statements env conn rest w1))
                = trace w ++ map (EvExec conn)
                               (statement :: filter sendable rest)).
      { intros H1. rewrite (IH w1 Hrest H1), Ht, <- app_assoc.
        reflexivity. }
      destruct e as [e|]; [|apply Hgo; exact Hok].
      destruct (contains (Error_text e) (str "no RowsAffected"));
        [apply Hgo; exact Hok | discriminate Hok].
Qed.

(** X16: when no segment of the script is a blank one and
    [execScript] returns no error, every segment that is not empty was
    sent, once and in script order. *)
Theorem execScript_all env conn script w :
  (forall segment, In segment (Split script) -> blank segment = false) ->
  fst (execScript env conn script w) = None ->
  trace (snd (execScript env conn script w))
  = trace w ++ map (EvExec conn) (filter sendable (Split script)).
Proof. rewrite execScript_loop. apply exec_statements_all. Qed.

Lemma execScript_all_witness :
  trace (snd (execScript (Sample.env [] Sample.none_bad None None) HConn
                (Sample.create_a ++ Sample.go ++ Sample.go
                 ++ Sample.create_b) fresh))
  = trace fresh
    ++ map (EvExec HConn)
         (filter sendable
            (Split (Sample.create_a ++ Sample.go ++ Sample.go
                    ++ Sample.create_b))).
Proof.
  apply (execScript_all (Sample.env [] Sample.none_bad None None) HConn
           (Sample.create_a ++ Sample.go ++ Sample.go ++ Sample.create_b)
           fresh).
  - intros segment Hin. vm_compute in Hin.
    destruct Hin as [<-|[<-|[<-|[]]]]; reflexivity.
  - reflexivity.
Defined.

(** A run of the loop without error logs nothing. *)
Lemma exec_statements_log env conn statements : forall w,
  fst (exec_statements env conn statements w) = None ->
  log (snd (exec_statements env conn statements w)) = log w.
Proof.
  induction statements as [|statement rest IH]; intros w; [reflexivity|].
  rewrite exec_statements_cons.
  destruct (eqb statement []); [apply IH|].
  destruct (Str.IsEmpty statement); [reflexivity|].
  pose proof (Exec_log env conn statement w) as Hl.
  destruct (Exec env conn statement w) as [e w1]. simpl snd in Hl.
  destruct e as [e|]; [|intros H; rewrite (IH w1 H); exact Hl].
  destruct (contains (Error_text e) (str "no RowsAffected"));
    [intros H; rewrite (IH w1 H); exact Hl | discriminate].
Qed.

(** A file run without error was read, and its text is returned. *)
Lemma execFile_reads env ctx conn filename w :
  snd (fst (execFile env ctx conn filename w)) = None ->
  read env filename = inl (fst (fst (execFile env ctx conn filename w))).
Proof.
  unfold execFile, bind, Info, ret.
  destruct (read env filename) as [script|e0]; [|discriminate].
  match goal with
  | |- context [execScript env conn script ?w1] =>
      destruct (execScript env conn script w1) as [[e|] w2]
  end; [discriminate | reflexivity].
Qed.

(** X17: [execFile] returns the text of the file exactly when it
    returns no error, and the empty string with an error; a file that
    cannot be read gives the read error with nothing sent to the
    database; a run without error logs the file name and then [OK]. *)
Theorem execFile_result env ctx conn filename w :
  let text := fst (fst (execFile env ctx conn filename w)) in
  let r := snd (fst (execFile env ctx conn filename w)) in
  let w' := snd (execFile env ctx conn filename w) in
  (r = None ->
     read env filename = inl text /\
     log w' = log w ++ [filename ++ str " ... "; str "OK" ++ [LF]]) /\
  (r <> None -> text = []) /\
  (forall e, read env filename = inr e ->
     r = Some e /\ trace w' = trace w /\ durable w' = durable w /\
     tx w' = tx w).
Proof.
  cbv zeta. unfold execFile, bind, Info, ret.
  destruct (read env filename) as [script|e0] eqn:Er.
  - rewrite execScript_loop.
    match goal with
    | |- context [exec_statements env conn (Split script) ?w1] =>
        pose proof (exec_statements_log env conn (Split script) w1) as Hl;
        destruct (exec_statements env conn (Split script) w1) as [e w2]
    end.
    cbn [fst snd] in Hl. simpl log in Hl.
    destruct e as [e|]; cbn [fst snd].
    + split; [discriminate|]. split; [reflexivity|]. intros e1 He1.
      discriminate He1.
    + split.
      * intros _. split; [reflexivity|]. cbn [log]. rewrite (Hl eq_refl).
        rewrite <- app_assoc. reflexivity.
      * split; [congruence|]. intros e1 He1. discriminate He1.
  - cbn [fst snd]. split; [discriminate|]. split; [reflexivity|].
    intros e1 He1. inversion He1; subst. repeat split; reflexivity.
Qed.

End ExecutorMore.

(** ** More on the migration runner *)

Module RunnerMore.
Import ExecutorFacts ExecutorMore RunnerFacts.

(** The ways through the part under the deferred rollback, from a
    transaction just begun: the up script fails; the ledger insert
    fails; the commit fails; all goes through. *)
Lemma tx_outcomes env ctx migration w2 m' r w' :
  tx w2 = tx_begun ->
  deferring AutoRollback (tx_body env ctx migration) w2 = ((m', r), w') ->
  let upf := scriptFilename (Options ctx) migration (str "up.sql") in
  let up := fst (fst (execFile env ctx HConn upf w2)) in
  let w3 := snd (execFile env ctx HConn upf w2) in
  let m3 := set_UpScript migration up in
  (exists e, snd (fst (execFile env ctx HConn upf w2)) = Some e /\
     r = Some e /\ m' = migration /\ tx w' = tx_rolled /\
     durable w' = durable w3 /\ trace w' = trace w3 ++ [EvRollback]) \/
  (snd (fst (execFile env ctx HConn upf w2)) = None /\
   ((exists e, insert_error env = Some e /\
       r = Some e /\ m' = m3 /\ tx w' = tx_rolled /\
       durable w' = durable w3 /\
       trace w' = trace w3 ++ [EvInsert (Name migration); EvRollback]) \/
    (insert_error env = None /\
     ((exists e, commit_error env = Some e /\
         r = None /\ m' = m3 /\ tx w' = tx_rolled /\
         durable w' = durable w3 /\
         trace w' = trace w3
                    ++ [EvInsert (Name migration); EvCommit; EvRollback]) \/
      (commit_error env = None /\
         r = None /\ m' = m3 /\ tx w' = tx_committed /\
         durable w' = durable w3 ++ [row_of m3] /\
         trace w' = trace w3 ++ commit_ending (Name migration)))))).
Proof.
  intros Htx. cbv zeta. unfold deferring, tx_body, bind.
  pose proof (execFile_conn_only env ctx
                (scriptFilename (Options ctx) migration (str "up.sql")) w2)
    as Hup.
  destruct (execFile env ctx HConn
              (scriptFilename (Options ctx) migration (str "up.sql")) w2)
    as [[upScript e] w3].
  cbn [fst snd] in *.
  destruct Hup as [Htx3 _]. rewrite Htx in Htx3. unfold tx_begun in Htx3.
  intros H.
  destruct e as [e|].
  { unfold ret, AutoRollback in H. rewrite Htx3 in H. cbn in H.
    inversion H; subst; clear H. cbn. left. exists e.
    repeat split; reflexivity. }
  right. split; [reflexivity|].
  unfold InsertLedger in H.
  destruct (insert_error env) as [e|] eqn:Eins.
  { unfold ret, AutoRollback in H. cbn in H. rewrite Htx3 in H. cbn in H.
    inversion H; subst; clear H. cbn. left. exists e.
    rewrite <- !app_assoc. repeat split; reflexivity. }
  right. split; [reflexivity|].
  unfold Commit in H. cbn in H. rewrite Htx3 in H.
  destruct (commit_error env) as [e|] eqn:Ecom.
  { unfold ret, AutoRollback in H. cbn in H.
    inversion H; subst; clear H. cbn. left. exists e.
    rewrite <- !app_assoc. repeat split; reflexivity. }
  right. split; [reflexivity|].
  unfold ret, AutoRollback in H. cbn in H.
  inversion H; subst; clear H. cbn.
  rewrite <- !app_assoc. repeat split; reflexivity.
Qed.

Lemma Begin_ok env w :
  begin_error env = None ->
  Begin env w
  = (None, {| log := log w; durable := durable w; tx := tx_begun;
              trace := trace w ++ [EvBegin] |}).
Proof. intros H. unfold Begin. rewrite H. reflexivity. Qed.

(** From [down.sql] on: either the run stops before a transaction is
    begun, or it begins one, runs the up script on the connection and
    ends in one of the four ways of [tx_outcomes]. *)
Lemma after_notx_outcomes env ctx migration w1 :
  let out := after_notx env ctx migration w1 in
  let m2 := fst (down_step env ctx migration) in
  let w2 := {| log := log w1; durable := durable w1; tx := tx_begun;
               trace := trace w1 ++ [EvBegin] |} in
  (exists e, out = ((m2, Some e), w1) /\
     (snd (down_step env ctx migration) = Some e \/
      (snd (down_step env ctx migration) = None /\
       begin_error env = Some e))) \/
  (snd (down_step env ctx migration) = None /\ begin_error env = None /\
   out = deferring AutoRollback (tx_body env ctx m2) w2).
Proof.
  cbv zeta. unfold after_notx.
  destruct (down_step env ctx migration) as [m2 [e|]]; cbn [fst snd].
  - left. exists e. split; [reflexivity | left; reflexivity].
  - unfold bind. destruct (begin_error env) as [e|] eqn:Eb.
    + left. exists e. unfold Begin. rewrite Eb.
      split; [reflexivity | right; split; reflexivity].
    + right. rewrite (Begin_ok env w1 Eb).
      split; [reflexivity|]. split; reflexivity.
Qed.

Lemma down_step_name env ctx migration :
  Name (fst (down_step env ctx migration)) = Name migration.
Proof.
  unfold down_step.
  destruct (stat env _); [|reflexivity].
  destruct (read env _); reflexivity.
Qed.

(** X18: the calls of one run follow a fixed protocol.  Statements go
    to the connection only.  Either no transaction is begun, and then
    an error is returned and the transaction state is left as it was; or
    exactly one is begun, the statements that follow are again on the
    connection, and the run ends with the ledger insert and a commit
    that went through (no error returned), or with a rollback: after the
    up script, after the insert, or after a failed commit. *)
Theorem runUpScripts_protocol env ctx migration w :
  let out := runUpScripts env ctx migration w in
  let r := snd (fst out) in
  let w' := snd out in
  exists t1,
    forallb is_conn_exec t1 = true /\
    ((trace w' = trace w ++ t1 /\ r <> None /\ tx w' = tx w) \/
     (exists t2 ending,
        forallb is_conn_exec t2 = true /\
        trace w' = trace w ++ t1 ++ EvBegin :: t2 ++ ending /\
        ((ending = commit_ending (Name migration) /\
          tx w' = tx_committed /\ r = None /\ commit_error env = None) \/
         (In ending (rollback_endings (Name migration)) /\
          tx w' = tx_rolled)))).
Proof.
  cbv zeta.
  assert (Hafter : forall m1 w1 t1,
            Name m1 = Name migration ->
            tx w1 = tx w ->
            trace w1 = trace w ++ t1 ->
            forallb is_conn_exec t1 = true ->
            let out := after_notx env ctx m1 w1 in
            exists t1,
              forallb is_conn_exec t1 = true /\
              ((trace (snd out) = trace w ++ t1 /\ snd (fst out) <> None /\
                tx (snd out) = tx w) \/
               (exists t2 ending,
                  forallb is_conn_exec t2 = true /\
                  trace (snd out) = trace w ++ t1 ++ EvBegin :: t2 ++ ending /\
                  ((ending = commit_ending (Name migration) /\
                    tx (snd out) = tx_committed /\ snd (fst out) = None /\
                    commit_error env = None) \/
                   (In ending (rollback_endings (Name migration)) /\
                    tx (snd out) = tx_rolled))))).
  { intros m1 w1 t1 Hname Htx Ht Hc. cbv zeta. exists t1.
    split; [exact Hc|].
    destruct (after_notx_outcomes env ctx m1 w1)
      as [[e [Hout _]]|[_ [_ Hout]]]; cbv zeta in Hout; rewrite Hout.
    - left. cbn [fst snd]. split; [exact Ht|]. split; [discriminate|exact Htx].
    - right.
      set (m2 := fst (down_step env ctx m1)) in *.
      assert (Hn2 : Name m2 = Name migration)
        by (subst m2; rewrite down_step_name; exact Hname).
      set (w2 := {| log := log w1; durable := durable w1; tx := tx_begun;
                    trace := trace w1 ++ [EvBegin] |}) in *.
      destruct (deferring AutoRollback (tx_body env ctx m2) w2)
        as [[m' r] w'] eqn:E.
      pose proof (execFile_conn_only env ctx
                    (scriptFilename (Options ctx) m2 (str "up.sql")) w2)
        as [_ [_ [t3 [Ht3 Hc3]]]].
      apply tx_outcomes in E; [|reflexivity]. cbv zeta in E.
      rewrite Hn2 in E. cbn [fst snd].
      exists t3.
      assert (Hpre : forall ending,
                trace w' = trace (snd (execFile env ctx HConn
                          (scriptFilename (Options ctx) m2 (str "up.sql")) w2))
                           ++ ending ->
                trace w' = trace w ++ t1 ++ EvBegin :: t3 ++ ending).
      { intros ending H. rewrite H, Ht3. subst w2. cbn [trace].
        rewrite Ht, <- !app_assoc. reflexivity. }
      destruct E as [[e [_ [_ [_ [Htx' [_ Htr]]]]]]
                    |[_ [[e [_ [_ [_ [Htx' [_ Htr]]]]]]
                        |[_ [[e [_ [_ [_ [Htx' [_ Htr]]]]]]
                            |[Hcom [Hr [_ [Htx' [_ Htr]]]]]]]]]].
      + exists [EvRollback]. split; [exact Hc3|].
        split; [apply Hpre; exact Htr|]. right.
        split; [left; reflexivity | exact Htx'].
      + exists [EvInsert (Name migration); EvRollback]. split; [exact Hc3|].
        split; [apply Hpre; exact Htr|]. right.
        split; [right; left; reflexivity | exact Htx'].
      + exists [EvInsert (Name migration); EvCommit; EvRollback].
        split; [exact Hc3|].
        split; [apply Hpre; exact Htr|]. right.
        split; [right; right; left; reflexivity | exact Htx'].
      + exists (commit_ending (Name migration)). split; [exact Hc3|].
        split; [apply Hpre; exact Htr|]. left.
        repeat split; assumption. }
  unfold runUpScripts, bind, notx_step.
  destruct (stat env (scriptFilename (Options ctx) migration
                        (str "notx.sql"))).
  - unfold bind.
    pose proof (execFile_conn_only env ctx
                  (scriptFilename (Options ctx) migration (str "notx.sql"))
                  w) as Hc.
    destruct (execFile env ctx HConn
                (scriptFilename (Options ctx) migration (str "notx.sql")) w)
      as [[script e] w1].
    cbn [snd] in Hc. destruct Hc as [Htx1 [_ [t1 [Ht1 Hc1]]]].
    destruct e as [e|]; unfold ret.
    + exists t1. split; [exact Hc1|]. left. cbn [fst snd].
      split; [exact Ht1|]. split; [discriminate | exact Htx1].
    + apply (Hafter (set_NoTransactionScript migration script) w1 t1);
        [reflexivity | exact Htx1 | exact Ht1 | exact Hc1].
  - unfold ret.
    apply (Hafter migration w []); [reflexivity | reflexivity | | reflexivity].
    rewrite app_nil_r. reflexivity.
Qed.

Lemma ledger_snoc w w' d row :
  durable w' = durable w ++ d ++ [row] -> forallb is_stmt d = true ->
  is_row row = true ->
  ledger w' = ledger w ++ [row].
Proof.
  intros Hd Hs Hr. unfold ledger.
  rewrite Hd, !filter_app, (stmts_no_row d Hs). simpl. rewrite Hr.
  reflexivity.
Qed.

(** What a run without error that committed leaves, seen from the
    world [w1] and the migration [m1] after the notx step. *)
Lemma after_notx_records env ctx m1 w1 :
  let out := after_notx env ctx m1 w1 in
  let m' := fst (fst out) in
  let downf := scriptFilename (Options ctx) m1 (str "down.sql") in
  snd (fst out) = None ->
  commit_error env = None ->
  (exists d, durable (snd out) = durable w1 ++ d ++ [row_of m'] /\
             forallb is_stmt d = true) /\
  tx (snd out) = tx_committed /\
  Name m' = Name m1 /\
  NoTransactionScript m' = NoTransactionScript m1 /\
  read env (scriptFilename (Options ctx) m1 (str "up.sql"))
  = inl (UpScript m') /\
  (if stat env downf then read env downf = inl (DownScript m')
   else DownScript m' = DownScript m1).
Proof.
  cbv zeta. intros Hok Hcom.
  destruct (after_notx_outcomes env ctx m1 w1)
    as [[e [Hout _]]|[Hdown [_ Hout]]]; cbv zeta in Hout; rewrite Hout in *.
  { discriminate Hok. }
  set (m2 := fst (down_step env ctx m1)) in *.
  set (w2 := {| log := log w1; durable := durable w1; tx := tx_begun;
                trace := trace w1 ++ [EvBegin] |}) in *.
  assert (Hn2 : Name m2 = Name m1) by (subst m2; apply down_step_name).
  assert (Hupf : scriptFilename (Options ctx) m2 (str "up.sql")
                 = scriptFilename (Options ctx) m1 (str "up.sql"))
    by (unfold scriptFilename; rewrite Hn2; reflexivity).
  destruct (deferring AutoRollback (tx_body env ctx m2) w2)
    as [[m' r] w'] eqn:E.
  cbn [fst snd] in *. subst r.
  pose proof (execFile_conn_only env ctx
                (scriptFilename (Options ctx) m2 (str "up.sql")) w2)
    as [_ [[d3 [Hd3 Hs3]] _]].
  pose proof (execFile_reads env ctx HConn
                (scriptFilename (Options ctx) m2 (str "up.sql")) w2)
    as Hread.
  apply tx_outcomes in E; [|reflexivity]. cbv zeta in E.
  destruct E as [[e [_ [Hr _]]]
                |[Hup [[e [_ [Hr _]]]
                      |[_ [[e [Hc _]]
                          |[_ [_ [Hm' [Htx' [Hd' _]]]]]]]]]];
    try discriminate; try congruence.
  pose proof (Hread Hup) as Hrd. rewrite Hupf in *.
  assert (Hm2 : NoTransactionScript m2 = NoTransactionScript m1 /\
                (if stat env (scriptFilename (Options ctx) m1 (str "down.sql"))
                 then read env (scriptFilename (Options ctx) m1
                                  (str "down.sql")) = inl (DownScript m2)
                 else DownScript m2 = DownScript m1)).
  { subst m2. unfold down_step in *.
    destruct (stat env (scriptFilename (Options ctx) m1 (str "down.sql")));
      [|split; reflexivity].
    destruct (read env (scriptFilename (Options ctx) m1 (str "down.sql")))
      as [downScript|e]; [split; reflexivity|].
    discriminate Hdown. }
  destruct Hm2 as [Hnotx Hdn].
  subst m'. cbn [Name UpScript DownScript NoTransactionScript set_UpScript].
  split.
  - exists d3. split; [|exact Hs3]. rewrite Hd', Hd3.
    subst w2. cbn [durable]. rewrite <- app_assoc. reflexivity.
  - repeat split; try assumption.
Qed.

(** X19: a run that returns no error and whose commit goes through
    adds exactly one row to the ledger, that of the migration as the run
    leaves it: its name, the text of [up.sql], and the texts of
    [down.sql] and [notx.sql] where these files exist (the fields the
    migration came with where they do not). *)
Theorem runUpScripts_records env ctx migration w :
  let out := runUpScripts env ctx migration w in
  let m' := fst (fst out) in
  let notxf := scriptFilename (Options ctx) migration (str "notx.sql") in
  let downf := scriptFilename (Options ctx) migration (str "down.sql") in
  let upf := scriptFilename (Options ctx) migration (str "up.sql") in
  snd (fst out) = None ->
  commit_error env = None ->
  ledger (snd out) = ledger w ++ [row_of m'] /\
  tx (snd out) = tx_committed /\
  Name m' = Name migration /\
  read env upf = inl (UpScript m') /\
  (if stat env downf then read env downf = inl (DownScript m')
   else DownScript m' = DownScript migration) /\
  (if stat env notxf then read env notxf = inl (NoTransactionScript m')
   else NoTransactionScript m' = NoTransactionScript migration).
Proof.
  cbv zeta. unfold runUpScripts, bind, notx_step.
  destruct (stat env (scriptFilename (Options ctx) migration
                        (str "notx.sql"))) eqn:Est.
  - unfold bind.
    pose proof (execFile_conn_only env ctx
                  (scriptFilename (Options ctx) migration (str "notx.sql"))
                  w) as Hc.
    pose proof (execFile_reads env ctx HConn
                  (scriptFilename (Options ctx) migration (str "notx.sql"))
                  w) as Hread.
    destruct (execFile env ctx HConn
                (scriptFilename (Options ctx) migration (str "notx.sql")) w)
      as [[script e] w1].
    cbn [fst snd] in Hc, Hread. destruct Hc as [_ [[d1 [Hd1 Hs1]] _]].
    destruct e as [e|]; unfold ret; [discriminate|].
    pose proof (Hread eq_refl) as Hrd.
    intros Hok Hcom.
    destruct (after_notx_records env ctx
                (set_NoTransactionScript migration script) w1 Hok Hcom)
      as [[d [Hd Hs]] [Htx [Hn [Hnotx [Hup Hdown]]]]].
    cbn [Name NoTransactionScript set_NoTransactionScript] in *.
    change (scriptFilename (Options ctx)
              (set_NoTransactionScript migration script))
      with (scriptFilename (Options ctx) migration) in *.
    split.
    + apply (ledger_snoc w _ (d1 ++ d)).
      * rewrite Hd, Hd1, <- !app_assoc. reflexivity.
      * rewrite forallb_app, Hs1, Hs. reflexivity.
      * reflexivity.
    + repeat split; try assumption. rewrite Hnotx. exact Hrd.
  - unfold ret. intros Hok Hcom.
    destruct (after_notx_records env ctx migration w Hok Hcom)
      as [[d [Hd Hs]] [Htx [Hn [Hnotx [Hup Hdown]]]]].
    split.
    + apply (ledger_snoc w _ d); [exact Hd | exact Hs | reflexivity].
    + repeat split; assumption.
Qed.

Lemma runUpScripts_records_witness :
  let env := Sample.env [(Sample.notx_sql, Sample.create_index);
                         (Sample.up_sql, Sample.create_a ++ Sample.go
                                         ++ Sample.create_b)]
               Sample.none_bad None None in
  let out := runUpScripts env Sample.ctx Sample.init fresh in
  let m' := fst (fst out) in
  let notxf := scriptFilename (Options Sample.ctx) Sample.init
                 (str "notx.sql") in
  let downf := scriptFilename (Options Sample.ctx) Sample.init
                 (str "down.sql") in
  let upf := scriptFilename (Options Sample.ctx) Sample.init
               (str "up.sql") in
  ledger (snd out) = ledger fresh ++ [row_of m'] /\
  tx (snd out) = tx_committed /\
  Name m' = Name Sample.init /\
  read env upf = inl (UpScript m') /\
  (if stat env downf then read env downf = inl (DownScript m')
   else DownScript m' = DownScript Sample.init) /\
  (if stat env notxf then read env notxf = inl (NoTransactionScript m')
   else NoTransactionScript m' = NoTransactionScript Sample.init).
Proof.
  apply (runUpScripts_records
           (Sample.env [(Sample.notx_sql, Sample.create_index);
                        (Sample.up_sql, Sample.create_a ++ Sample.go
                                        ++ Sample.create_b)]
              Sample.none_bad None None)
           Sample.ctx Sample.init fresh).
  - reflexivity.
  - reflexivity.
Defined.

(** X20: when the notx script fails, the run ends there with its
    error: the migration is returned as it came, nothing but the
    statements of the notx script was sent, no transaction was begun and
    the ledger is as it was. *)
Theorem runUpScripts_notx_fails env ctx migration w e :
  let notxf := scriptFilename (Options ctx) migration (str "notx.sql") in
  stat env notxf = true ->
  snd (fst (execFile env ctx HConn notxf w)) = Some e ->
  runUpScripts env ctx migration w
  = ((migration, Some e), snd (execFile env ctx HConn notxf w)) /\
  conn_only w (snd (runUpScripts env ctx migration w)) /\
  ledger (snd (runUpScripts env ctx migration w)) = ledger w.
Proof.
  cbv zeta. intros Hstat Hfail.
  assert (Hrun : runUpScripts env ctx migration w
                 = ((migration, Some e),
                    snd (execFile env ctx HConn
                           (scriptFilename (Options ctx) migration
                              (str "notx.sql")) w))).
  { unfold runUpScripts, bind, notx_step. rewrite Hstat. unfold bind.
    destruct (execFile env ctx HConn
                (scriptFilename (Options ctx) migration (str "notx.sql")) w)
      as [[script e1] w1].
    simpl in Hfail. subst e1. reflexivity. }
  rewrite Hrun. cbn [snd]. split; [reflexivity|].
  pose proof (execFile_conn_only env ctx
                (scriptFilename (Options ctx) migration (str "notx.sql")) w)
    as Hc.
  split; [exact Hc|].
  destruct Hc as [_ [[d [Hd Hs]] _]].
  apply (ledger_app _ _ d Hd). apply stmts_no_row. exact Hs.
Qed.

Lemma runUpScripts_notx_fails_witness :
  let env := Sample.env [(Sample.notx_sql, Sample.second_fails);
                         (Sample.up_sql, Sample.create_b)]
               Sample.is_bad None None in
  let notxf := scriptFilename (Options Sample.ctx) Sample.init
                 (str "notx.sql") in
  runUpScripts env Sample.ctx Sample.init fresh
  = ((Sample.init, Some (DriverError (str "syntax error"))),
     snd (execFile env Sample.ctx HConn notxf fresh)) /\
  conn_only fresh (snd (runUpScripts env Sample.ctx Sample.init fresh)) /\
  ledger (snd (runUpScripts env Sample.ctx Sample.init fresh))
  = ledger fresh.
Proof.
  apply (runUpScripts_notx_fails
           (Sample.env [(Sample.notx_sql, Sample.second_fails);
                        (Sample.up_sql, Sample.create_b)]
              Sample.is_bad None None)
           Sample.ctx Sample.init fresh (DriverError (str "syntax error"))).
  - reflexivity.
  - reflexivity.
Defined.

(** X21: when a run returns an error, or its commit fails, the
    ledger insert of the run has not become durable: the ledger rows
    the database holds are those from before the call, with or without
    a notx script, and wherever the run failed. *)
Theorem runUpScripts_error_no_row env ctx migration w :
  snd (fst (runUpScripts env ctx migration w)) <> None
  \/ commit_error env <> None ->
  ledger (snd (runUpScripts env ctx migration w)) = ledger w.
Proof.
  unfold runUpScripts, bind, notx_step.
  assert (Hafter : forall m1 w1 d1,
            durable w1 = durable w ++ d1 -> forallb is_stmt d1 = true ->
            snd (fst (after_notx env ctx m1 w1)) <> None
            \/ commit_error env <> None ->
            ledger (snd (after_notx env ctx m1 w1)) = ledger w).
  { intros m1 w1 d1 Hd1 Hs1.
    destruct (after_notx env ctx m1 w1) as [[m' r] w'] eqn:E.
    apply from_begin in E. destruct E as [_ [d [Hd Hrow]]]. cbn [fst snd].
    intros Hfail. rewrite (ledger_app w1 w' d Hd (Hrow Hfail)).
    apply (ledger_app w w1 d1 Hd1). apply stmts_no_row. exact Hs1. }
  destruct (stat env (scriptFilename (Options ctx) migration
                        (str "notx.sql"))).
  - unfold bind.
    pose proof (execFile_conn_only env ctx
                  (scriptFilename (Options ctx) migration (str "notx.sql"))
                  w) as Hc.
    destruct (execFile env ctx HConn
                (scriptFilename (Options ctx) migration (str "notx.sql")) w)
      as [[script e] w1].
    cbn [snd] in Hc. destruct Hc as [_ [[d1 [Hd1 Hs1]] _]].
    destruct e as [e|]; unfold ret.
    + cbn [fst snd]. intros _.
      apply (ledger_app w w1 d1 Hd1). apply stmts_no_row. exact Hs1.
    + apply (Hafter _ w1 d1 Hd1 Hs1).
  - unfold ret. apply (Hafter migration w []);
      [rewrite app_nil_r; reflexivity | reflexivity].
Qed.

Lemma runUpScripts_error_no_row_witness :
  ledger (snd (runUpScripts
                 (Sample.env [(Sample.up_sql, Sample.create_a)]
                    Sample.none_bad
                    (Some (DriverError (str "duplicate key"))) None)
                 Sample.ctx Sample.init fresh))
  = ledger fresh.
Proof.
  apply (runUpScripts_error_no_row
           (Sample.env [(Sample.up_sql, Sample.create_a)] Sample.none_bad
              (Some (DriverError (str "duplicate key"))) None)
           Sample.ctx Sample.init fresh).
  left. vm_compute. discriminate.
Defined.

Lemma In_firstn {A} (x : A) k l : In x (firstn k l) -> In x l.
Proof.
  intros H. rewrite <- (firstn_skipn k l). apply in_or_app. left. exact H.
Qed.

(** What [execFile] sends: segments of the text of the file, none of
    them white space only, on the handle it was given. *)
Lemma execFile_sends env ctx conn filename w :
  exists l,
    trace (snd (execFile env ctx conn filename w))
    = trace w ++ map (EvExec conn) l /\
    forall sql, In sql l ->
      exists text, read env filename = inl text /\ In sql (Split text) /\
                   sendable sql = true.
Proof.
  unfold execFile, bind, Info, ret.
  destruct (read env filename) as [script|e0].
  - match goal with
    | |- context [execScript env conn script ?w1] =>
        rewrite (execScript_loop env conn script w1);
        destruct (exec_statements_sent env conn (Split script) w1) as [k Hk];
        destruct (exec_statements env conn (Split script) w1) as [e w2]
    end.
    cbn [snd trace] in Hk.
    exists (firstn k (filter sendable (Split script))). split.
    + destruct e; cbn [snd trace]; exact Hk.
    + intros sql Hin. apply In_firstn in Hin. apply filter_In in Hin.
      exists script. split; [reflexivity | exact Hin].
  - exists []. cbn [snd trace]. rewrite app_nil_r.
    split; [reflexivity | intros sql []].
Qed.

Lemma sent_app t1 t2 : sent (t1 ++ t2) = sent t1 ++ sent t2.
Proof.
  induction t1 as [|e t1 IH]; [reflexivity|].
  destruct e; simpl; rewrite IH; reflexivity.
Qed.

Lemma sent_execs conn l : sent (map (EvExec conn) l) = l.
Proof. induction l as [|x l IH]; [reflexivity|]. simpl. rewrite IH. reflexivity. Qed.

(** X22: apart from the ledger insert, every statement a run sends to
    the database is a segment of the text of the migration's [notx.sql]
    or of its [up.sql], and is not white space only.  The text of
    [down.sql] is read and stored, never run. *)
Theorem runUpScripts_sends env ctx migration w :
  let notxf := scriptFilename (Options ctx) migration (str "notx.sql") in
  let upf := scriptFilename (Options ctx) migration (str "up.sql") in
  exists t,
    trace (snd (runUpScripts env ctx migration w)) = trace w ++ t /\
    forall sql, In sql (sent t) ->
      sendable sql = true /\
      exists text, In sql (Split text) /\
        ((stat env notxf = true /\ read env notxf = inl text) \/
         read env upf = inl text).
Proof.
  cbv zeta.
  assert (Hafter : forall m1 w1 l1,
            Name m1 = Name migration ->
            trace w1 = trace w ++ map (EvExec HConn) l1 ->
            exists l2 other,
              trace (snd (after_notx env ctx m1 w1))
              = trace w ++ map (EvExec HConn) l1 ++ other /\
              sent other = l2 /\
              forall sql, In sql l2 ->
                exists text,
                  read env (scriptFilename (Options ctx) migration
                              (str "up.sql")) = inl text /\
                  In sql (Split text) /\ sendable sql = true).
  { intros m1 w1 l1 Hname Ht1.
    destruct (after_notx_outcomes env ctx m1 w1)
      as [[e [Hout _]]|[_ [_ Hout]]]; cbv zeta in Hout; rewrite Hout.
    - exists [], []. cbn [snd]. rewrite app_nil_r.
      split; [exact Ht1|]. split; [reflexivity | intros sql []].
    - set (m2 := fst (down_step env ctx m1)) in *.
      assert (Hn2 : Name m2 = Name migration)
        by (subst m2; rewrite down_step_name; exact Hname).
      assert (Hupf : scriptFilename (Options ctx) m2 (str "up.sql")
                     = scriptFilename (Options ctx) migration (str "up.sql"))
        by (unfold scriptFilename; rewrite Hn2; reflexivity).
      set (w2 := {| log := log w1; durable := durable w1; tx := tx_begun;
                    trace := trace w1 ++ [EvBegin] |}) in *.
      destruct (deferring AutoRollback (tx_body env ctx m2) w2)
        as [[m' r] w'] eqn:E.
      destruct (execFile_sends env ctx HConn
                  (scriptFilename (Options ctx) m2 (str "up.sql")) w2)
        as [l2 [Ht2 Hl2]].
      rewrite Hupf in Hl2.
      apply tx_outcomes in E; [|reflexivity]. cbv zeta in E.
      cbn [snd].
      assert (Hgo : forall ending,
                sent ending = [] ->
                trace w' = trace (snd (execFile env ctx HConn
                         (scriptFilename (Options ctx) m2 (str "up.sql")) w2))
                           ++ ending ->
                exists l2 other,
                  trace w' = trace w ++ map (EvExec HConn) l1 ++ other /\
                  sent other = l2 /\
                  forall sql, In sql l2 ->
                    exists text,
                      read env (scriptFilename (Options ctx) migration
                                  (str "up.sql")) = inl text /\
                      In sql (Split text) /\ sendable sql = true).
      { intros ending Hse Htr.
        exists l2, (EvBegin :: map (EvExec HConn) l2 ++ ending).
        split; [|split].
        - rewrite Htr, Ht2. subst w2. cbn [trace].
          rewrite Ht1, <- !app_assoc. reflexivity.
        - cbn [sent]. rewrite sent_app, sent_execs, Hse.
          apply app_nil_r.
        - exact Hl2. }
      destruct E as [[e [_ [_ [_ [_ [_ Htr]]]]]]
                    |[_ [[e [_ [_ [_ [_ [_ Htr]]]]]]
                        |[_ [[e [_ [_ [_ [_ [_ Htr]]]]]]
                            |[_ [_ [_ [_ [_ Htr]]]]]]]]]];
        (eapply Hgo; [|exact Htr]; reflexivity). }
  unfold runUpScripts, bind, notx_step.
  destruct (stat env (scriptFilename (Options ctx) migration
                        (str "notx.sql"))) eqn:Est.
  - unfold bind.
    destruct (execFile_sends env ctx HConn
                (scriptFilename (Options ctx) migration (str "notx.sql")) w)
      as [l1 [Ht1 Hl1]].
    destruct (execFile env ctx HConn
                (scriptFilename (Options ctx) migration (str "notx.sql")) w)
      as [[script e] w1].
    cbn [snd] in Ht1.
    assert (Hnotx : forall sql, In sql l1 ->
              sendable sql = true /\
              exists text, In sql (Split text) /\
                ((true = true /\
                  read env (scriptFilename (Options ctx) migration
                              (str "notx.sql")) = inl text) \/
                 read env (scriptFilename (Options ctx) migration
                             (str "up.sql")) = inl text)).
    { intros sql Hin. destruct (Hl1 sql Hin) as [text [Hr [Hs Hsend]]].
      split; [exact Hsend|]. exists text. split; [exact Hs|]. left.
      split; [reflexivity | exact Hr]. }
    destruct e as [e|]; unfold ret.
    + exists (map (EvExec HConn) l1). cbn [snd]. split; [exact Ht1|].
      rewrite sent_execs. exact Hnotx.
    + destruct (Hafter (set_NoTransactionScript migration script) w1 l1
                  eq_refl Ht1) as [l2 [other [Ht [Hso Hl2]]]].
      exists (map (EvExec HConn) l1 ++ other). split; [exact Ht|].
      rewrite sent_app, sent_execs, Hso. intros sql Hin.
      apply in_app_or in Hin. destruct Hin as [Hin|Hin].
      * apply Hnotx. exact Hin.
      * destruct (Hl2 sql Hin) as [text [Hr [Hs Hsend]]].
        split; [exact Hsend|]. exists text. split; [exact Hs|]. right.
        exact Hr.
  - unfold ret.
    destruct (Hafter migration w [] eq_refl) as [l2 [other [Ht [Hso Hl2]]]].
    { simpl. rewrite app_nil_r. reflexivity. }
    exists other. split; [exact Ht|]. rewrite Hso. intros sql Hin.
    destruct (Hl2 sql Hin) as [text [Hr [Hs Hsend]]].
    split; [exact Hsend|]. exists text. split; [exact Hs|]. right. exact Hr.
Qed.

End RunnerMore.

(** ** The patterns of the directory listings *)

Module RegexFacts.
Import Regex.

Lemma nullable_iff r : nullable r = true <-> matches r [].
Proof.
  induction r as [| |p|r1 IH1 r2 IH2|r1 IH1 r2 IH2|r IH]; simpl.
  - split; [discriminate | intros H; inversion H].
  - split; [constructor | reflexivity].
  - split; [discriminate | intros H; inversion H].
  - rewrite andb_true_iff, IH1, IH2. split.
    + intros [H1 H2]. apply (M_Cat r1 r2 [] [] H1 H2).
    + intros H. inversion H as [| |? ? s1 s2 H1 H2 Heq| | | |]; subst.
      apply app_eq_nil in H3. destruct H3; subst. split; assumption.
  - rewrite orb_true_iff, IH1, IH2. split.
    + intros [H|H]; [apply M_AltL | apply M_AltR]; exact H.
    + intros H. inversion H; subst; [left | right]; assumption.
  - split; [constructor | reflexivity].
Qed.

Lemma star_cons r c s :
  matches (Star r) (c :: s) ->
  exists s1 s2, s = s1 ++ s2 /\ matches r (c :: s1) /\ matches (Star r) s2.
Proof.
  intros H. remember (Star r) as r0 eqn:Er. remember (c :: s) as s0 eqn:Es.
  revert c s Es.
  induction H as [| | | | | |r' s1 s2 H1 _ H2 IH2]; intros x t Es;
    try discriminate Er; [discriminate Es|].
  inversion Er; subst r'.
  destruct s1 as [|c1 s1].
  - simpl in Es. apply (IH2 eq_refl x t Es).
  - simpl in Es. inversion Es; subst. exists s1, s2.
    split; [reflexivity | split; assumption].
Qed.

Lemma deriv_iff r : forall c s, matches (deriv c r) s <-> matches r (c :: s).
Proof.
  induction r as [| |p|r1 IH1 r2 IH2|r1 IH1 r2 IH2|r IH]; intros c s; simpl.
  - split; intros H; inversion H.
  - split; intros H; inversion H.
  - destruct (p c) eqn:E; split; intros H; inversion H; subst.
    + constructor. exact E.
    + constructor.
    + congruence.
  - assert (Hfront : forall s, matches (Cat (deriv c r1) r2) s ->
                               matches (Cat r1 r2) (c :: s)).
    { intros s0 H. inversion H as [| |? ? s1 s2 H1 H2| | | |]; subst.
      apply IH1 in H1. apply (M_Cat r1 r2 (c :: s1) s2 H1 H2). }
    assert (Hback : forall s, matches (Cat r1 r2) (c :: s) ->
                (matches (Cat (deriv c r1) r2) s) \/
                (matches r1 [] /\ matches (deriv c r2) s)).
    { intros s0 H. inversion H as [| |? ? s1 s2 H1 H2 Heq| | | |]; subst.
      destruct s1 as [|c1 s1].
      - simpl in H3. subst s2. right. split; [exact H1|].
        apply IH2. exact H2.
      - simpl in H3. inversion H3; subst. left.
        apply M_Cat; [apply IH1; exact H1 | exact H2]. }
    destruct (nullable r1) eqn:En.
    + split.
      * intros H. inversion H; subst; [apply Hfront; assumption|].
        apply nullable_iff in En.
        apply (M_Cat r1 r2 [] (c :: s) En). apply IH2. assumption.
      * intros H. destruct (Hback s H) as [H1|[_ H1]];
          [apply M_AltL | apply M_AltR]; exact H1.
    + split; [apply Hfront|].
      intros H. destruct (Hback s H) as [H1|[H1 _]]; [exact H1|].
      apply nullable_iff in H1. congruence.
  - split.
    + intros H. inversion H; subst; [apply M_AltL; apply IH1
                                    | apply M_AltR; apply IH2]; assumption.
    + intros H. inversion H; subst; [apply M_AltL; apply IH1
                                    | apply M_AltR; apply IH2]; assumption.
  - split.
    + intros H. inversion H as [| |? ? s1 s2 H1 H2| | | |]; subst.
      apply IH in H1. apply (M_StarS r (c :: s1) s2 H1 H2).
    + intros H. destruct (star_cons r c s H) as [s1 [s2 [-> [H1 H2]]]].
      apply M_Cat; [apply IH; exact H1 | exact H2].
Qed.

(** The matcher decides the pattern's language. *)
Lemma full_match_iff s : forall r, full_match r s = true <-> matches r s.
Proof.
  induction s as [|c s IH]; intros r; simpl.
  - apply nullable_iff.
  - rewrite IH. apply deriv_iff.
Qed.

Lemma MatchString_to_end_iff r s :
  MatchString_to_end r s = true <->
  exists pre suf, s = pre ++ suf /\ matches r suf.
Proof.
  unfold MatchString_to_end. rewrite existsb_exists. split.
  - intros [i [_ H]]. apply full_match_iff in H.
    exists (firstn i s), (skipn i s).
    split; [symmetry; apply firstn_skipn | exact H].
  - intros [pre [suf [-> H]]]. exists (List.length pre). split.
    + apply in_seq. rewrite length_app. lia.
    + apply full_match_iff. rewrite skipn_app, skipn_all, Nat.sub_diag.
      exact H.
Qed.

Lemma matches_chr p s : matches (Chr p) s <-> exists c, s = [c] /\ p c = true.
Proof.
  split.
  - intros H. inversion H; subst. eauto.
  - intros [c [-> H]]. constructor. exact H.
Qed.

Lemma matches_star_class p s :
  matches (Star (Chr p)) s <-> forallb p s = true.
Proof.
  split.
  - intros H. remember (Star (Chr p)) as r eqn:Er.
    induction H as [| | | | | |r' s1 s2 H1 _ H2 IH2]; try discriminate Er;
      [reflexivity|].
    inversion Er; subst r'.
    apply matches_chr in H1. destruct H1 as [c [-> Hc]]. simpl.
    rewrite Hc. apply IH2. reflexivity.
  - induction s as [|c s IH]; intros H; [constructor|].
    simpl in H. apply andb_true_iff in H. destruct H as [Hc Hs].
    apply (M_StarS (Chr p) [c] s); [constructor; exact Hc | apply IH; exact Hs].
Qed.

Lemma matches_plus_class p s :
  matches (Plus (Chr p)) s <-> s <> [] /\ forallb p s = true.
Proof.
  unfold Plus. split.
  - intros H. inversion H as [| |? ? s1 s2 H1 H2| | | |]; subst.
    apply matches_chr in H1. destruct H1 as [c [-> Hc]].
    apply matches_star_class in H2.
    split; [discriminate|]. simpl. rewrite Hc. exact H2.
  - intros [Hne H]. destruct s as [|c s]; [congruence|].
    simpl in H. apply andb_true_iff in H. destruct H as [Hc Hs].
    apply (M_Cat (Chr p) (Star (Chr p)) [c] s);
      [constructor; exact Hc | apply matches_star_class; exact Hs].
Qed.

Lemma matches_cat r1 r2 s :
  matches (Cat r1 r2) s <->
  exists s1 s2, s = s1 ++ s2 /\ matches r1 s1 /\ matches r2 s2.
Proof.
  split.
  - intros H. inversion H; subst. eauto.
  - intros [s1 [s2 [-> [H1 H2]]]]. constructor; assumption.
Qed.

Lemma matches_lit l s : matches (Lit l) s <-> s = l.
Proof.
  revert s; induction l as [|c l IH]; intros s; simpl.
  - split; [intros H; inversion H; reflexivity | intros ->; constructor].
  - rewrite matches_cat. split.
    + intros [s1 [s2 [-> [H1 H2]]]].
      apply matches_chr in H1. destruct H1 as [c' [-> Hc]].
      apply Ascii.eqb_eq in Hc. subst. apply IH in H2. subst. reflexivity.
    + intros ->. exists [c], l. split; [reflexivity|].
      split; [constructor; apply Ascii.eqb_refl | apply IH; reflexivity].
Qed.

(** What [reMigrationDir] matches from end to end. *)
Lemma reMigrationDir_language suf :
  matches reMigrationDir suf <->
  exists digits slug,
    suf = digits ++ str "-" ++ slug /\
    digits <> [] /\ forallb is_digit digits = true /\
    slug <> [] /\ forallb is_word_or_dash slug = true.
Proof.
  unfold reMigrationDir. split.
  - intros H.
    apply matches_cat in H. destruct H as [ds [rest [-> [Hd H]]]].
    apply matches_cat in H. destruct H as [dash [slug [-> [Hdash Hs]]]].
    apply matches_plus_class in Hd. apply matches_plus_class in Hs.
    apply matches_chr in Hdash. destruct Hdash as [c [-> Hc]].
    apply Ascii.eqb_eq in Hc. subst c.
    exists ds, slug. split; [reflexivity|]. tauto.
  - intros [ds [slug [-> [Hd1 [Hd2 [Hs1 Hs2]]]]]].
    apply matches_cat. exists ds, (str "-" ++ slug). split; [reflexivity|].
    split; [apply matches_plus_class; tauto|].
    apply matches_cat. exists (str "-"), slug. split; [reflexivity|].
    split; [constructor; reflexivity | apply matches_plus_class; tauto].
Qed.

(** X23: [reMigrationDir] accepts a path exactly when the path ends
    with one or more digits, a dash, and one or more letters, digits,
    underscores or dashes. *)
Theorem reMigrationDir_accepts path :
  MatchString_to_end reMigrationDir path = true <->
  exists pre digits slug,
    path = pre ++ digits ++ str "-" ++ slug /\
    digits <> [] /\ forallb is_digit digits = true /\
    slug <> [] /\ forallb is_word_or_dash slug = true.
Proof.
  rewrite MatchString_to_end_iff. split.
  - intros [pre [suf [-> H]]]. apply reMigrationDir_language in H.
    destruct H as [ds [slug [-> H]]]. exists pre, ds, slug.
    split; [reflexivity | exact H].
  - intros [pre [ds [slug [-> H]]]].
    exists pre, (ds ++ str "-" ++ slug). split; [reflexivity|].
    apply reMigrationDir_language. exists ds, slug.
    split; [reflexivity | exact H].
Qed.

(** A part without a slash at the end of [dir/name] lies within
    [name]. *)
Lemma suffix_after_slash dir : forall name pre suf,
  dir ++ slash :: name = pre ++ suf ->
  forallb (fun c => negb (Ascii.eqb c slash)) suf = true ->
  exists pre', name = pre' ++ suf.
Proof.
  induction dir as [|d dir IH]; intros name pre suf Heq Hsuf.
  - destruct pre as [|x pre].
    + simpl in Heq. subst suf. simpl in Hsuf. discriminate Hsuf.
    + simpl in Heq. inversion Heq. eauto.
  - destruct pre as [|x pre].
    + simpl in Heq. subst suf. exfalso.
      assert (Hin : In slash (d :: dir ++ slash :: name))
        by (right; apply in_or_app; right; left; reflexivity).
      rewrite forallb_forall in Hsuf. specialize (Hsuf slash Hin).
      rewrite Ascii.eqb_refl in Hsuf. discriminate Hsuf.
    + simpl in Heq. inversion Heq. eapply IH; eauto.
Qed.

Lemma word_or_dash_no_slash c :
  is_word_or_dash c = true -> negb (Ascii.eqb c slash) = true.
Proof.
  intros H. destruct (Ascii.eqb c slash) eqn:E; [|reflexivity].
  apply Ascii.eqb_eq in E. subst c. discriminate H.
Qed.

Lemma digit_word_or_dash c : is_digit c = true -> is_word_or_dash c = true.
Proof.
  intros H. unfold is_word_or_dash, is_word. rewrite H. reflexivity.
Qed.

Lemma forallb_impl {A} (f g : A -> bool) l :
  (forall x, f x = true -> g x = true) ->
  forallb f l = true -> forallb g l = true.
Proof.
  intros Hfg. induction l as [|x l IH]; [reflexivity|]. simpl.
  intros H. apply andb_true_iff in H. destruct H as [Hx Hl].
  rewrite (Hfg x Hx), (IH Hl). reflexivity.
Qed.

(** X24: [getMigrationSubDirectories] tests the whole path where it
    lists the name; for a path [dir/name] whose [name] has no slash the
    test on the path and the test on the name agree. *)
Theorem reMigrationDir_path_or_name dir name :
  forallb (fun c => negb (Ascii.eqb c slash)) name = true ->
  MatchString_to_end reMigrationDir (dir ++ slash :: name)
  = MatchString_to_end reMigrationDir name.
Proof.
  intros Hname.
  assert (Hiff : MatchString_to_end reMigrationDir (dir ++ slash :: name)
                 = true
                 <-> MatchString_to_end reMigrationDir name = true).
  { rewrite !MatchString_to_end_iff. split.
    - intros [pre [suf [Heq H]]].
      pose proof H as Hm. apply reMigrationDir_language in H.
      destruct H as [ds [slug [-> [Hd1 [Hd2 [Hs1 Hs2]]]]]].
      destruct (suffix_after_slash dir name pre (ds ++ str "-" ++ slug) Heq)
        as [pre' Hpre'].
      + rewrite forallb_app. apply andb_true_iff. split.
        * apply (forallb_impl is_digit); [|exact Hd2].
          intros x Hx. apply word_or_dash_no_slash.
          apply digit_word_or_dash. exact Hx.
        * simpl. apply (forallb_impl is_word_or_dash); [|exact Hs2].
          apply word_or_dash_no_slash.
      + exists pre', (ds ++ str "-" ++ slug). split; assumption.
    - intros [pre [suf [-> H]]].
      exists (dir ++ slash :: pre), suf.
      split; [rewrite <- app_assoc; reflexivity | exact H]. }
  destruct (MatchString_to_end reMigrationDir (dir ++ slash :: name)),
           (MatchString_to_end reMigrationDir name);
    try reflexivity.
  - destruct Hiff as [H _]. symmetry. apply H. reflexivity.
  - destruct Hiff as [_ H]. apply H. reflexivity.
Qed.

Lemma reMigrationDir_path_or_name_witness :
  MatchString_to_end reMigrationDir
    (str "migrations" ++ slash :: str "202001010000-init")
  = MatchString_to_end reMigrationDir (str "202001010000-init").
Proof.
  apply (reMigrationDir_path_or_name (str "migrations")
           (str "202001010000-init")).
  reflexivity.
Defined.

(** X25: [reSQLFile] accepts an ASCII name exactly when the name ends
    with one or more letters, digits, underscores or dashes, one more
    character that is no line feed, and [sql]: the character before
    [sql] need not be a dot. *)
Theorem reSQLFile_accepts name :
  is_ascii_text name = true ->
  (MatchString_to_end reSQLFile name = true <->
   exists pre stem c,
     name = pre ++ stem ++ [c] ++ str "sql" /\
     stem <> [] /\ forallb is_word_or_dash stem = true /\ c <> LF).
Proof.
  intros _.
  rewrite MatchString_to_end_iff. unfold reSQLFile. split.
  - intros [pre [suf [-> H]]].
    apply matches_cat in H. destruct H as [stem [rest [-> [Hs H]]]].
    apply matches_cat in H. destruct H as [dot [lit [-> [Hdot Hl]]]].
    apply matches_plus_class in Hs. apply matches_lit in Hl. subst lit.
    apply matches_chr in Hdot. destruct Hdot as [c [-> Hc]].
    unfold is_dot in Hc. apply negb_true_iff in Hc.
    exists pre, stem, c. split; [reflexivity|].
    split; [tauto|]. split; [tauto|].
    intros ->. rewrite Ascii.eqb_refl in Hc. discriminate Hc.
  - intros [pre [stem [c [-> [Hs1 [Hs2 Hc]]]]]].
    exists pre, (stem ++ [c] ++ str "sql"). split; [reflexivity|].
    apply matches_cat. exists stem, ([c] ++ str "sql").
    split; [reflexivity|].
    split; [apply matches_plus_class; tauto|].
    apply matches_cat. exists [c], (str "sql"). split; [reflexivity|].
    split; [|apply matches_lit; reflexivity].
    constructor. unfold is_dot. apply negb_true_iff.
    destruct (Ascii.eqb c LF) eqn:E; [|reflexivity].
    apply Ascii.eqb_eq in E. contradiction.
Qed.

Lemma reSQLFile_accepts_witness :
  MatchString_to_end reSQLFile (str "mysql") = true <->
  exists pre stem c,
    str "mysql" = pre ++ stem ++ [c] ++ str "sql" /\
    stem <> [] /\ forallb is_word_or_dash stem = true /\ c <> LF.
Proof.
  apply (reSQLFile_accepts (str "mysql")). reflexivity.
Defined.

(** A name without a dot that the pattern takes for an SQL file. *)
Lemma reSQLFile_without_dot :
  MatchString_to_end reSQLFile (str "mysql") = true.
Proof. reflexivity. Qed.

End RegexFacts.

Module ListingFacts.
Import Regex Listing.

Lemma walk_ok visits : forall files,
  no_error visits = true ->
  walk_migration_dirs visits files
  = (files ++ map v_name (filter is_migration_dir visits), None).
Proof.
  unfold no_error.
  induction visits as [|v rest IH]; intros files Hok.
  - simpl. rewrite app_nil_r. reflexivity.
  - simpl in Hok |- *. destruct (v_err v); [discriminate Hok|].
    simpl in Hok. unfold is_migration_dir at 1.
    destruct (v_isDir v && MatchString_to_end reMigrationDir (v_path v)).
    + rewrite IH by exact Hok. simpl. rewrite <- app_assoc. reflexivity.
    + apply IH. exact Hok.
Qed.

Lemma walk_error ok : forall bad rest e files,
  no_error ok = true ->
  v_err bad = Some e ->
  walk_migration_dirs (ok ++ bad :: rest) files
  = (files ++ map v_name (filter is_migration_dir ok), Some e).
Proof.
  unfold no_error.
  induction ok as [|v ok IH]; intros bad rest e files Hok Hbad.
  - simpl. rewrite Hbad, app_nil_r. reflexivity.
  - simpl in Hok |- *. destruct (v_err v); [discriminate Hok|].
    simpl in Hok. unfold is_migration_dir at 1.
    destruct (v_isDir v && MatchString_to_end reMigrationDir (v_path v)).
    + rewrite (IH bad rest e) by assumption. simpl.
      rewrite <- app_assoc. reflexivity.
    + apply IH; assumption.
Qed.

(** X26: [getPartialLocalMigrations] is all or nothing.  A walk
    without error gives one partial migration, name only, for each
    directory visited whose path the pattern accepts, in the order of
    the walk.  A walk that meets an error gives no migration at all,
    also when directories were already found; the error is returned,
    unless it is a [*os.PathError], which is dropped. *)
Theorem getPartialLocalMigrations_all_or_nothing ok :
  no_error ok = true ->
  getPartialLocalMigrations ok
  = (map partial (map v_name (filter is_migration_dir ok)), None) /\
  forall bad rest e,
    v_err bad = Some e ->
    getMigrationSubDirectories (ok ++ bad :: rest)
    = (map v_name (filter is_migration_dir ok), Some e) /\
    getPartialLocalMigrations (ok ++ bad :: rest)
    = ([], match e with PathError _ => None | _ => Some e end).
Proof.
  intros Hok. unfold getPartialLocalMigrations, getMigrationSubDirectories.
  split.
  - rewrite (walk_ok ok [] Hok). reflexivity.
  - intros bad rest e Hbad.
    rewrite (walk_error ok bad rest e [] Hok Hbad). simpl.
    split; [reflexivity|]. destruct e; reflexivity.
Qed.

Lemma getPartialLocalMigrations_all_or_nothing_witness :
  getPartialLocalMigrations sample_walk
  = (map partial (map v_name (filter is_migration_dir sample_walk)), None) /\
  forall bad rest e,
    v_err bad = Some e ->
    getMigrationSubDirectories (sample_walk ++ bad :: rest)
    = (map v_name (filter is_migration_dir sample_walk), Some e) /\
    getPartialLocalMigrations (sample_walk ++ bad :: rest)
    = ([], match e with PathError _ => None | _ => Some e end).
Proof.
  apply (getPartialLocalMigrations_all_or_nothing sample_walk).
  reflexivity.
Defined.

(** The sample walk lists the one migration directory. *)
Lemma sample_walk_lists :
  getPartialLocalMigrations sample_walk = ([Sample.init], None).
Proof. reflexivity. Qed.

End ListingFacts.

(** ** The notx script *)

Module NotxFacts.
Import ExecutorFacts ExecutorMore RunnerFacts RunnerMore.





(** A sample run, call by call: the notx statement on the connection,
    then the transaction, whose rollback leaves the notx statement in
    the database and no row in the ledger. *)
Lemma notx_sample_run :
  let env := Sample.env [(Sample.notx_sql, Sample.create_index);
                         (Sample.up_sql, Sample.second_fails)]
               Sample.is_bad None None in
  let out := runUpScripts env Sample.ctx Sample.init fresh in
  trace (snd out)
  = [EvExec HConn Sample.create_index; EvBegin;
     EvExec HConn Sample.create_a; EvExec HConn Sample.bad_stmt;
     EvRollback] /\
  durable (snd out) = [Stmt Sample.create_index; Stmt Sample.create_a] /\
  ledger (snd out) = [].
Proof. repeat split; reflexivity. Qed.

End NotxFacts.
